(** * LanguageManager: template rendering, language fallback and the render cache

    A shallow embedding of [src/LanguageManager.cpp] (MultiReplace plugin for
    Notepad++) and the properties of its three parts:

    - [get]: lookup with the missing-key fallback, followed by the three
      substitution passes ([<br/>], numbered placeholders in descending
      order, the bare placeholder);
    - [loadFromIni]: the English table overlaid with the detected language;
    - [getLPCW] / [makeKey]: the process-wide cache of rendered strings.

    A [std::wstring] is a list of code units, a [std::map] or
    [std::unordered_map] a [gmap].  The search loops of [get] are modelled
    with an explicit iteration budget and an [option] result, [None] standing
    for a loop that has not finished; [get_total] shows that the budget the
    model supplies is always enough. *)

From stdpp Require Import gmap list strings.
From Stdlib Require Import NArith Decimal.
From Stdlib Require DecimalNat.

(** ** Wide strings *)

(** A [wchar_t] is kept as the number of its code unit. *)
Abbreviation wchar := N (only parsing).
Abbreviation wstring := (list N) (only parsing).

(** [L "..."] is the wide literal with the code units of an ASCII literal. *)
Definition L (s : string) : wstring :=
  (λ a, N.of_nat (Ascii.nat_of_ascii a)) <$> String.list_ascii_of_string s.

(** The two code units of the line break, carriage return then line feed. *)
Definition CRLF : wstring := [13%N; 10%N].

(** [starts_with ph s]: the needle [ph] is read at the very beginning of [s]. *)
Fixpoint starts_with (ph s : wstring) : bool :=
  match ph, s with
  | [], _ => true
  | _ :: _, [] => false
  | c :: ph', d :: s' => (c =? d)%N && starts_with ph' s'
  end.

(** [find_at ph s i] scans [s], whose first unit has index [i] in the whole
    string, for the first place where [ph] is read. *)
Fixpoint find_at (ph s : wstring) (i : nat) : option nat :=
  if starts_with ph s then Some i
  else match s with
       | [] => None
       | _ :: s' => find_at ph s' (S i)
       end.

(** [std::wstring::find(ph, pos)]: the lowest index [q >= pos] at which [ph]
    is read in [s], and [None] for [npos] (also when [pos] is past the end). *)
Definition find (s ph : wstring) (pos : nat) : option nat :=
  if decide (pos ≤ length s) then find_at ph (drop pos s) pos else None.

(** [std::wstring::replace(pos, n, val)]: the [n] units from [pos] (fewer at
    the end of the string) give way to [val].  The loops below call it with
    a position that [find] has returned, which is never past the end. *)
Definition replace (s : wstring) (pos n : nat) (val : wstring) : wstring :=
  take pos s ++ val ++ drop (pos + n) s.

(** The loop shared by the three passes,
<<
    for (size_t p = result.find(ph); p != npos; p = result.find(ph, p)) {
        result.replace(p, ph.size(), val);
        p += val.size();
    }
>>
    as a function of the loop state [(result, p)] at the loop head. *)
Fixpoint replace_loop (fuel : nat) (ph val result : wstring) (p : nat)
  : option wstring :=
  match fuel with
  | 0 => None
  | S fuel' =>
      match find result ph p with
      | None => Some result
      | Some q =>
          replace_loop fuel' ph val
            (replace result q (length ph) val) (q + length val)
      end
  end.

(** The whole loop, entered with [p = result.find(ph)], that is a search
    from index 0.  Every iteration moves the scan position at least
    [length ph] units closer to the end of the string, so one more iteration
    than the string has units is enough for a non-empty needle
    ([replace_all_total]). *)
Definition replace_all (ph val result : wstring) : option wstring :=
  replace_loop (S (length result)) ph val result 0.

(** ** Decimal numerals: [std::to_wstring] on a [size_t] *)

Fixpoint uint_digits (d : Decimal.uint) : wstring :=
  match d with
  | Nil => []
  | D0 d' => 48%N :: uint_digits d'
  | D1 d' => 49%N :: uint_digits d'
  | D2 d' => 50%N :: uint_digits d'
  | D3 d' => 51%N :: uint_digits d'
  | D4 d' => 52%N :: uint_digits d'
  | D5 d' => 53%N :: uint_digits d'
  | D6 d' => 54%N :: uint_digits d'
  | D7 d' => 55%N :: uint_digits d'
  | D8 d' => 56%N :: uint_digits d'
  | D9 d' => 57%N :: uint_digits d'
  end.

Definition to_wstring (i : nat) : wstring := uint_digits (Nat.to_uint i).

(** ** LanguageManager::get *)

(** [const std::wstring base = L"$REPLACE_STRING";] *)
Definition base : wstring := L "$REPLACE_STRING".

(** The marker of the first pass. *)
Definition br : wstring := L "<br/>".

(** Pass 2, [for (size_t i = repl.size(); i > 0; --i)]: the loop variable
    counts down, [ph = base + std::to_wstring(i)] and [val = repl[i - 1]].
    The index [i - 1] is inside [repl] whenever the loop is entered with
    [i = repl.size()]; reading outside it has no defined result. *)
Fixpoint numbered_pass (i : nat) (repl : list wstring) (result : wstring)
  : option wstring :=
  match i with
  | 0 => Some result
  | S i' =>
      val ← repl !! i';
      result' ← replace_all (base ++ to_wstring i) val result;
      numbered_pass i' repl result'
  end.

(** Pass 3, [val = repl.empty() ? std::wstring() : repl[0]]. *)
Definition bare_value (repl : list wstring) : wstring :=
  match repl with
  | [] => []
  | v :: _ => v
  end.

(** The three passes of [get] on the template found in the table. *)
Definition render (tmpl : wstring) (repl : list wstring) : option wstring :=
  r1 ← replace_all br CRLF tmpl;
  r2 ← numbered_pass (length repl) repl r1;
  replace_all base (bare_value repl) r2.

(** [LanguageManager::get]: a key that is not in the table is returned as it
    is, the template of any other key goes through the three passes. *)
Definition get (table : gmap wstring wstring) (id : wstring)
  (repl : list wstring) : option wstring :=
  match table !! id with
  | None => Some id
  | Some tmpl => render tmpl repl
  end.

(** ** The cache key *)

(** [L'\x1F'], the unit separator. *)
Definition US : wchar := 31%N.

(** [makeKey]: [key = id], then the separator, then each replacement value
    followed by the separator. *)
Definition makeKey (id : wstring) (repl : list wstring) : wstring :=
  foldl (λ key r, (key ++ r) ++ [US]) (id ++ [US]) repl.

(** The identifier and the replacement values are free of the separator. *)
Definition sep_free (id : wstring) (repl : list wstring) : Prop :=
  (US ∉ id) ∧ Forall (λ r, US ∉ r) repl.

(** ** The manager and the process-wide cache *)

Section Manager.
(** [languageMap], the built-in English table of [language_mapping.h]. *)
Variable languageMap : gmap wstring wstring.

(** The INI store behind the member [_cache]: [load] reads a file into the
    store and reports success, [raw] gives the sections read, language
    code to key to text. *)
Variable IniFileCache : Type.
Variable ini_load : wstring → IniFileCache → bool * IniFileCache.
Variable ini_raw : IniFileCache → gmap wstring (gmap wstring wstring).

Record LanguageManager := {
  _table : gmap wstring wstring;
  _cache : IniFileCache;
}.

(** The singleton manager together with the static map of [lpcwCache()]. *)
Record Process := {
  manager : LanguageManager;
  lpcwCache : gmap wstring wstring;
}.

(** [for (const auto& kv : it->second) _table[kv.first] = kv.second;] *)
Definition overlay (table kvs : gmap wstring wstring) : gmap wstring wstring :=
  map_fold (λ k v t, <[k := v]> t) table kvs.

(** [invalidateCaches]: [lpcwCache().clear()] *)
Definition invalidateCaches (st : Process) : Process :=
  {| manager := manager st; lpcwCache := ∅ |}.

Definition loadFromIni (iniFile languageCode : wstring) (st : Process)
  : bool * Process :=
  let table := languageMap in
  let (ok, ini) := ini_load iniFile (_cache (manager st)) in
  if ok then
    let table' :=
      match ini_raw ini !! languageCode with
      | Some kvs => overlay table kvs
      | None => table
      end in
    (true,
     invalidateCaches
       {| manager := {| _table := table'; _cache := ini |};
          lpcwCache := lpcwCache st |})
  else
    (false,
     {| manager := {| _table := table; _cache := ini |};
        lpcwCache := lpcwCache st |}).

(** [getLPCW]: the text stored under the key, after storing the rendering
    of [get] under it when there was none. *)
Definition getLPCW (id : wstring) (repl : list wstring) (st : Process)
  : option (wstring * Process) :=
  let key := makeKey id repl in
  match lpcwCache st !! key with
  | Some v => Some (v, st)
  | None =>
      v ← get (_table (manager st)) id repl;
      Some (v, {| manager := manager st;
                  lpcwCache := <[key := v]> (lpcwCache st) |})
  end.

End Manager.

#[global] Arguments _table {_} _.
#[global] Arguments _cache {_} _.
#[global] Arguments manager {_} _.
#[global] Arguments lpcwCache {_} _.
#[global] Arguments Build_LanguageManager {_} _ _.
#[global] Arguments Build_Process {_} _ _.
#[global] Arguments invalidateCaches {_} _.
#[global] Arguments getLPCW {_} _ _ _.

(** ** Predicates and reference functions of the statements *)

(** [occurs ph s]: the needle [ph] is read somewhere in [s]. *)
Definition occurs (ph s : wstring) : Prop := ∃ u v, s = u ++ ph ++ v.

(** A needle whose first unit is not repeated inside it cannot overlap a
    second copy of itself; [$REPLACE_STRING], its numbered forms and [<br/>]
    are all of this kind. *)
Definition head_unique (ph : wstring) : Prop :=
  match ph with
  | [] => False
  | c :: ph' => c ∉ ph'
  end.

(** The code unit of [$]. *)
Definition dollar : wchar := 36%N.

(** [join sep segs]: the segments with [sep] between neighbours. *)
Fixpoint join (sep : wstring) (segs : list wstring) : wstring :=
  match segs with
  | [] => []
  | u :: rest =>
      match rest with
      | [] => u
      | _ :: _ => u ++ sep ++ join sep rest
      end
  end.

(** Every entry of the cache, as far as separator-free keys go, is what
    [get] returns with the table now loaded. *)
Definition coherent (table cache : gmap wstring wstring) : Prop :=
  ∀ id repl v, sep_free id repl →
    cache !! makeKey id repl = Some v → get table id repl = Some v.

(** The values of the key after the identifier. *)
Fixpoint key_tail (repl : list wstring) : wstring :=
  match repl with
  | [] => []
  | r :: repl' => r ++ US :: key_tail repl'
  end.

(** ** A small installation, for the examples *)

(** A built-in table with two texts, a store that holds one German section
    once [languages.ini] is read; any other file fails to load and leaves
    the store as it is. *)
Definition demo_english : gmap wstring wstring :=
  {[ L "greeting" := L "Hello"; L "farewell" := L "Goodbye" ]}.

Definition demo_ini : gmap wstring (gmap wstring wstring) :=
  {[ L "german" := {[ L "greeting" := L "Hallo" ]} ]}.

Definition demo_load (path : wstring)
  (store : gmap wstring (gmap wstring wstring))
  : bool * gmap wstring (gmap wstring wstring) :=
  if decide (path = L "languages.ini") then (true, demo_ini) else (false, store).

Definition demo_raw (store : gmap wstring (gmap wstring wstring))
  : gmap wstring (gmap wstring wstring) := store.

Definition demo_loadFromIni :=
  loadFromIni demo_english (gmap wstring (gmap wstring wstring))
    demo_load demo_raw.

(** The process before any load. *)
Definition demo_start : Process (gmap wstring (gmap wstring wstring)) :=
  {| manager := {| _table := ∅; _cache := ∅ |}; lpcwCache := ∅ |}.

(** German is loaded and the greeting is asked for through the cache. *)
Definition demo_german : Process (gmap wstring (gmap wstring wstring)) :=
  (demo_loadFromIni (L "languages.ini") (L "german") demo_start).2.

Definition demo_german_cached : Process (gmap wstring (gmap wstring wstring)) :=
  match getLPCW (L "greeting") [] demo_german with
  | Some (_, st) => st
  | None => demo_german
  end.

(** A process with the table [a ↦ T] and an empty cache; the store plays no
    part. *)
Definition demo_collision : Process unit :=
  {| manager := {| _table := {[ L "a" := L "T" ]}; _cache := () |};
     lpcwCache := ∅ |}.

(** ** LanguageManager::load, detectLanguage and getLPW *)

(** The code units of the backslash and of the slash. *)
Definition backslash : wchar := 92%N.
Definition slash : wchar := 47%N.

(** The path that [load] hands to [loadFromIni]:
<<
    std::wstring ini = pluginDir;
    if (!ini.empty() && ini.back() != L'\\' && ini.back() != L'/')
        ini += L'\\';
    ini += L"MultiReplace\\languages.ini";
>> *)
Definition ini_path (pluginDir : wstring) : wstring :=
  let ini := pluginDir in
  let ini :=
    match last ini with
    | Some c =>
        if negb (c =? backslash)%N && negb (c =? slash)%N
        then ini ++ [backslash]
        else ini
    | None => ini
    end in
  ini ++ L "MultiReplace\languages.ini".

(** What [std::regex_search(line, m, rx)] does with one line, for the fixed
    expression [rx] of [detectLanguage]: it finds a match, whose first group
    [m[1]] is kept, or finds none, or throws. *)
Inductive regex_outcome :=
  | Matched (group1 : wstring)
  | Unmatched
  | Thrown.

Section Load.
Variable languageMap : gmap wstring wstring.
Variable IniFileCache : Type.
Variable ini_load : wstring → IniFileCache → bool * IniFileCache.
Variable ini_raw : IniFileCache → gmap wstring (gmap wstring wstring).

(** The file system as [std::wifstream] and [std::getline] show it: the
    lines of the file at a path, [None] when the file cannot be opened. *)
Variable read_lines : wstring → option (list wstring).
(** [std::regex_search] with the expression of [detectLanguage]. *)
Variable search_native_langue : wstring → regex_outcome.

(** The loop of [detectLanguage] over the lines still to be read, with
    [lang = L"english"] until a line matches; an exception leaves the loop
    and the fallback stands. *)
Fixpoint scan_lines (lines : list wstring) : wstring :=
  match lines with
  | [] => L "english"
  | line :: rest =>
      match search_native_langue line with
      | Matched group1 => group1
      | Unmatched => scan_lines rest
      | Thrown => L "english"
      end
  end.

Definition detectLanguage (xmlPath : wstring) : wstring :=
  match read_lines xmlPath with
  | None => L "english"
  | Some lines => scan_lines lines
  end.

Definition load (pluginDir nativeLangXmlPath : wstring)
  (st : Process IniFileCache) : bool * Process IniFileCache :=
  let langCode := detectLanguage nativeLangXmlPath in
  loadFromIni languageMap IniFileCache ini_load ini_raw
    (ini_path pluginDir) langCode st.

End Load.

(** [getLPW], with the thread-local [buf] as state:
<<
    buf = get(id, repl);
    return buf.empty() ? nullptr : &buf[0];
>>
    The result says whether the pointer returned is [&buf[0]] ([true]) or
    [nullptr] ([false]), and gives the buffer after the call. *)
Definition getLPW (table : gmap wstring wstring) (id : wstring)
  (repl : list wstring) (buf : wstring) : option (bool * wstring) :=
  buf' ← get table id repl;
  Some (match buf' with [] => false | _ :: _ => true end, buf').

(** A caller that asks [getLPCW] for one text after the other. *)
Fixpoint getLPCW_each {IniFileCache : Type}
  (requests : list (wstring * list wstring)) (st : Process IniFileCache)
  : option (list wstring * Process IniFileCache) :=
  match requests with
  | [] => Some ([], st)
  | (id, repl) :: rest =>
      match getLPCW id repl st with
      | None => None
      | Some (v, st1) =>
          match getLPCW_each rest st1 with
          | None => None
          | Some (vs, st2) => Some (v :: vs, st2)
          end
      end
  end.

(** A decimal digit, and a text that goes on with one. *)
Definition is_digit (c : wchar) : bool := (48 <=? c)%N && (c <=? 57)%N.

Definition digit_ahead (s : wstring) : bool :=
  match s with
  | [] => false
  | c :: _ => is_digit c
  end.

#[global] Arguments L : simpl never.
#[global] Arguments base : simpl never.
#[global] Arguments br : simpl never.
#[global] Arguments to_wstring : simpl never.
#[global] Arguments replace_all : simpl never.

(** * Properties *)

(** ** Searching and replacing *)

Section Search.
Implicit Types ph val s u v : wstring.

Lemma starts_with_prefix ph s : starts_with ph s = true ↔ ∃ v, s = ph ++ v.
Proof.
  revert s. induction ph as [|c ph IH]; intros s; simpl.
  - split; [eauto | done].
  - destruct s as [|d s].
    + split; [done | intros [v Hv]; done].
    + rewrite andb_true_iff, N.eqb_eq, IH. split.
      * intros [-> [v ->]]. eauto.
      * intros [v Hv]. injection Hv as -> ->. eauto.
Qed.

Lemma starts_with_app ph v : starts_with ph (ph ++ v) = true.
Proof. apply starts_with_prefix. eauto. Qed.

Lemma starts_with_length ph s :
  starts_with ph s = true → length ph ≤ length s.
Proof.
  intros [v ->]%starts_with_prefix. rewrite length_app. lia.
Qed.

Lemma find_at_shift ph s i :
  find_at ph s i = (λ q, i + q) <$> find_at ph s 0.
Proof.
  revert i. induction s as [|d s IH]; intros i; simpl.
  - destruct (starts_with ph []); simpl; [f_equal; lia | done].
  - destruct (starts_with ph (d :: s)); simpl; [f_equal; lia |].
    rewrite (IH (S i)), (IH 1). destruct (find_at ph s 0); simpl; [|done].
    f_equal. lia.
Qed.

(** What a successful search says: the needle is read at [q], inside the
    string, and at no earlier index. *)
Lemma find_at_Some ph s q :
  find_at ph s 0 = Some q →
  starts_with ph (drop q s) = true ∧ q + length ph ≤ length s ∧
  ∀ k, k < q → starts_with ph (drop k s) = false.
Proof.
  revert q. induction s as [|d s IH]; intros q; simpl.
  - destruct (starts_with ph []) eqn:E; [|done].
    intros [= <-]. simpl. split; [done|]. split; [|lia].
    apply starts_with_length in E. simpl in *. lia.
  - destruct (starts_with ph (d :: s)) eqn:E.
    + intros [= <-]. simpl. split; [done|]. split; [|lia].
      apply starts_with_length in E. simpl in *. lia.
    + rewrite find_at_shift. destruct (find_at ph s 0) as [q'|] eqn:F; [|done].
      simpl. intros [= <-]. destruct (IH q' eq_refl) as (H1 & H2 & H3).
      split; [done|]. split; [lia|].
      intros [|k] Hk; simpl; [done|]. apply H3. lia.
Qed.

Lemma find_at_None ph s : find_at ph s 0 = None ↔ ¬ occurs ph s.
Proof.
  induction s as [|d s IH]; simpl.
  - destruct (starts_with ph []) eqn:E.
    + split; [done|]. intros []. apply starts_with_prefix in E as [v ->].
      by exists [], v.
    + split; [|done]. intros _ (u & v & Huv).
      destruct u; [|done]. simpl in Huv.
      assert (starts_with ph [] = true); [|congruence].
      apply starts_with_prefix. eauto.
  - destruct (starts_with ph (d :: s)) eqn:E.
    + split; [done|]. intros []. apply starts_with_prefix in E as [v Hv].
      by exists [], v.
    + rewrite find_at_shift. destruct (find_at ph s 0) as [q|] eqn:F; simpl.
      * split; [done|]. intros Hn. exfalso.
        assert (Hs : ¬ ¬ occurs ph s).
        { intros Hs. apply IH in Hs. done. }
        apply Hs. intros (u & v & ->). apply Hn. by exists (d :: u), v.
      * split; [|done]. intros _ (u & v & Huv).
        destruct u as [|d' u]; simpl in Huv.
        -- assert (starts_with ph (d :: s) = true); [|congruence].
           apply starts_with_prefix. eauto.
        -- injection Huv as -> ->. apply (proj1 IH); [done|]. by exists u, v.
Qed.

Lemma find_zero s ph : find s ph 0 = find_at ph s 0.
Proof. unfold find. rewrite decide_True by lia. done. Qed.

(** Searching from the end of an already settled prefix [pre] is
    searching the rest. *)
Lemma find_app_length ph pre rest :
  find (pre ++ rest) ph (length pre)
  = (λ q, length pre + q) <$> find_at ph rest 0.
Proof.
  unfold find. rewrite decide_True by (rewrite length_app; lia).
  rewrite drop_app_length. apply find_at_shift.
Qed.

Lemma replace_app_length pre rest q n val :
  q ≤ length rest →
  replace (pre ++ rest) (length pre + q) n val
  = (pre ++ take q rest ++ val) ++ drop (q + n) rest.
Proof.
  intros Hq. unfold replace.
  rewrite take_app_add', <- Nat.add_assoc, drop_app_add' by done.
  by rewrite <- !app_assoc.
Qed.

(** The part of the string before the scan position is never read again:
    the loop on [pre ++ rest] at position [length pre] is the loop on
    [rest] from 0, with [pre] kept in front. *)
Lemma replace_loop_prefix fuel ph val pre rest :
  replace_loop fuel ph val (pre ++ rest) (length pre)
  = (pre ++.) <$> replace_loop fuel ph val rest 0.
Proof.
  revert pre rest. induction fuel as [|fuel IH]; intros pre rest; [done|].
  simpl. rewrite find_app_length, find_zero.
  destruct (find_at ph rest 0) as [q|] eqn:F; simpl; [|done].
  apply find_at_Some in F as (_ & Hq & _).
  rewrite replace_app_length by lia.
  replace (length pre + q + length val)
    with (length (pre ++ take q rest ++ val))
    by (rewrite !length_app, length_take; lia).
  rewrite IH.
  pose proof (replace_app_length [] rest q (length ph) val) as Hr.
  simpl in Hr. rewrite Hr by lia.
  replace (q + length val) with (length (take q rest ++ val))
    by (rewrite length_app, length_take; lia).
  rewrite IH. destruct (replace_loop fuel ph val _ 0); simpl; [|done].
  by rewrite <- !app_assoc.
Qed.

(** One turn of the loop, seen from position 0. *)
Lemma replace_loop_unfold fuel ph val s :
  replace_loop (S fuel) ph val s 0
  = match find_at ph s 0 with
    | None => Some s
    | Some q =>
        (λ r, take q s ++ val ++ r)
          <$> replace_loop fuel ph val (drop (q + length ph) s) 0
    end.
Proof.
  simpl. rewrite find_zero.
  destruct (find_at ph s 0) as [q|] eqn:F; [|done].
  apply find_at_Some in F as (_ & Hq & _).
  pose proof (replace_app_length [] s q (length ph) val) as Hr.
  simpl in Hr. rewrite Hr by lia.
  replace (q + length val) with (length (take q s ++ val))
    by (rewrite length_app, length_take; lia).
  rewrite replace_loop_prefix.
  destruct (replace_loop fuel ph val _ 0); simpl; [|done].
  by rewrite <- !app_assoc.
Qed.

(** With a non-empty needle the loop ends within [length s + 1] turns,
    and more turns than that change nothing. *)
Lemma replace_loop_enough fuel fuel' ph val s :
  ph ≠ [] → length s < fuel → length s < fuel' →
  is_Some (replace_loop fuel ph val s 0) ∧
  replace_loop fuel ph val s 0 = replace_loop fuel' ph val s 0.
Proof.
  intros Hph. revert fuel' s.
  induction fuel as [|fuel IH]; intros fuel' s Hf Hf'; [lia|].
  destruct fuel' as [|fuel']; [lia|].
  rewrite !replace_loop_unfold.
  destruct (find_at ph s 0) as [q|] eqn:F; [|by eauto].
  apply find_at_Some in F as (_ & Hq & _).
  assert (0 < length ph) by (destruct ph; [done | simpl; lia]).
  destruct (IH fuel' (drop (q + length ph) s)) as [[r Hr] He];
    [rewrite length_drop; lia ..|].
  rewrite <- He, Hr. simpl. eauto.
Qed.

Lemma replace_all_total ph val s : ph ≠ [] → is_Some (replace_all ph val s).
Proof.
  intros Hph. apply (replace_loop_enough _ (S (length s))); [done | lia ..].
Qed.

(** The loop equation of [replace_all], free of the iteration budget. *)
Lemma replace_all_unfold ph val s :
  ph ≠ [] →
  replace_all ph val s
  = match find_at ph s 0 with
    | None => Some s
    | Some q =>
        (λ r, take q s ++ val ++ r)
          <$> replace_all ph val (drop (q + length ph) s)
    end.
Proof.
  intros Hph. unfold replace_all. rewrite replace_loop_unfold.
  destruct (find_at ph s 0) as [q|] eqn:F; [|done].
  apply find_at_Some in F as (_ & Hq & _).
  assert (0 < length ph) by (destruct ph; [done | simpl; lia]).
  f_equal. apply replace_loop_enough; [done | rewrite ?length_drop; lia ..].
Qed.

(** A string without the needle is left as it is. *)
Lemma replace_all_absent ph val s :
  ¬ occurs ph s → replace_all ph val s = Some s.
Proof.
  intros Hn%find_at_None. unfold replace_all. simpl.
  by rewrite find_zero, Hn.
Qed.

End Search.

(** ** Needles that cannot overlap themselves *)

Section FirstOccurrence.
Implicit Types ph val s u v w : wstring.

Lemma occurs_app_l ph u v : occurs ph u → occurs ph (u ++ v).
Proof.
  intros (a & b & ->). exists a, (b ++ v). by rewrite <- !app_assoc.
Qed.

Lemma occurs_cons ph d s : occurs ph s → occurs ph (d :: s).
Proof. intros (a & b & ->). by exists (d :: a), b. Qed.

Lemma occurs_longer ph ph' s : occurs (ph ++ ph') s → occurs ph s.
Proof.
  intros (a & b & ->). exists a, (ph' ++ b). by rewrite <- !app_assoc.
Qed.

Lemma occurs_head c ph s : occurs (c :: ph) s → c ∈ s.
Proof. intros (a & b & ->). set_solver. Qed.

(** A needle read at the start of [u ++ w] lies inside [u], or runs over
    the end of [u] and goes on in [w]. *)
Lemma starts_with_app_inv ph u w :
  starts_with ph (u ++ w) = true →
  starts_with ph u = true ∨
  (length u < length ph ∧ starts_with (drop (length u) ph) w = true).
Proof.
  revert ph. induction u as [|d u IH]; intros ph; simpl.
  - destruct ph; [by left | right]. simpl. split; [lia | done].
  - destruct ph as [|c ph]; [by left|]. simpl.
    rewrite andb_true_iff. intros [Hc H]. rewrite Hc. simpl.
    destruct (IH ph H) as [?|[? ?]]; [by left | right]. split; [lia | done].
Qed.

Lemma head_unique_nonempty ph : head_unique ph → ph ≠ [].
Proof. by destruct ph. Qed.

(** After a text [u] without the needle, the first place where a
    self-avoiding needle is read in [u ++ ph ++ v] is the end of [u]. *)
Lemma find_at_first ph u v :
  head_unique ph → ¬ occurs ph u →
  find_at ph (u ++ ph ++ v) 0 = Some (length u).
Proof.
  intros Hph. induction u as [|d u IH]; intros Hu.
  - simpl. destruct (ph ++ v) eqn:E; simpl; rewrite <- ?E;
      by rewrite starts_with_app.
  - simpl. destruct (starts_with ph (d :: u ++ ph ++ v)) eqn:E.
    + exfalso. apply (starts_with_app_inv ph (d :: u)) in E as [E|[Hl E]].
      * apply Hu. apply starts_with_prefix in E as [b ->]. by exists [], b.
      * destruct ph as [|c ph]; [done|]. simpl in *.
        destruct (drop (length u) ph) as [|x rest] eqn:D.
        { apply (f_equal length) in D. rewrite length_drop in D.
          simpl in D. lia. }
        simpl in E. apply andb_true_iff in E as [->%N.eqb_eq _].
        apply Hph. apply (subseteq_drop (length u)). rewrite D. set_solver.
    + rewrite find_at_shift, IH; [done|].
      intros Ho. apply Hu. by apply occurs_cons.
Qed.

(** The first turn of the loop on such a string replaces the needle after
    [u]; the loop then goes on in [v] alone. *)
Lemma replace_all_first ph val u v :
  head_unique ph → ¬ occurs ph u →
  replace_all ph val (u ++ ph ++ v)
  = (λ r, u ++ val ++ r) <$> replace_all ph val v.
Proof.
  intros Hph Hu.
  rewrite replace_all_unfold by by apply head_unique_nonempty.
  rewrite find_at_first by done.
  rewrite take_app_length.
  replace (drop (length u + length ph) (u ++ ph ++ v)) with v; [done|].
  by rewrite <- drop_drop, drop_app_length, drop_app_length.
Qed.

End FirstOccurrence.

(** ** The needles of [get] *)

Lemma uint_digits_no_dollar d : dollar ∉ uint_digits d.
Proof.
  induction d; simpl; rewrite ?not_elem_of_cons; try split;
    try done; apply not_elem_of_nil.
Qed.

Lemma base_eq : base = dollar :: L "REPLACE_STRING".
Proof. reflexivity. Qed.

Lemma base_head_unique : head_unique base.
Proof.
  rewrite base_eq. simpl. apply (bool_decide_unpack _). by vm_compute.
Qed.

Lemma br_head_unique : head_unique br.
Proof. apply (bool_decide_unpack _). by vm_compute. Qed.

(** [base + std::to_wstring(i)] *)
Lemma token_head_unique i : head_unique (base ++ to_wstring i).
Proof.
  rewrite base_eq.
  change (dollar ∉ L "REPLACE_STRING" ++ to_wstring i).
  rewrite not_elem_of_app. split.
  - apply (bool_decide_unpack _). by vm_compute.
  - apply uint_digits_no_dollar.
Qed.

Lemma no_dollar_no_base s : dollar ∉ s → ¬ occurs base s.
Proof. intros Hs Ho. rewrite base_eq in Ho. by apply occurs_head in Ho. Qed.

Lemma no_base_no_token i s : ¬ occurs base s → ¬ occurs (base ++ to_wstring i) s.
Proof. intros Hs Ho. by apply occurs_longer in Ho. Qed.

(** ** The passes of [get] always finish *)

Lemma bind_Some {A B} (f : A → option B) (x : A) : Some x ≫= f = f x.
Proof. reflexivity. Qed.

Lemma numbered_pass_S i repl s :
  numbered_pass (S i) repl s
  = repl !! i ≫= λ val,
      replace_all (base ++ to_wstring (S i)) val s ≫= numbered_pass i repl.
Proof. reflexivity. Qed.

Lemma numbered_pass_total i repl s :
  i ≤ length repl → is_Some (numbered_pass i repl s).
Proof.
  revert s. induction i as [|i IH]; intros s Hi; [by eexists|].
  rewrite numbered_pass_S.
  destruct (lookup_lt_is_Some_2 repl i) as [val ->]; [lia|].
  rewrite bind_Some.
  destruct (replace_all_total (base ++ to_wstring (S i)) val s) as [r ->].
  { apply head_unique_nonempty, token_head_unique. }
  rewrite bind_Some. apply IH. lia.
Qed.

Lemma render_total tmpl repl : is_Some (render tmpl repl).
Proof.
  unfold render.
  destruct (replace_all_total br CRLF tmpl) as [r1 ->]; [done|].
  rewrite bind_Some.
  destruct (numbered_pass_total (length repl) repl r1) as [r2 ->]; [done|].
  rewrite bind_Some. by apply replace_all_total.
Qed.

Lemma get_total table id repl : is_Some (get table id repl).
Proof.
  unfold get. destruct (table !! id); [apply render_total | by eexists].
Qed.

(** The numbered pass leaves a string alone when none of the tokens it
    searches for, [$REPLACE_STRING1] to [$REPLACE_STRING<i>], is in it. *)
Lemma numbered_pass_absent i repl s :
  i ≤ length repl →
  (∀ j, 1 ≤ j ≤ i → ¬ occurs (base ++ to_wstring j) s) →
  numbered_pass i repl s = Some s.
Proof.
  induction i as [|i IH]; intros Hi Hs; [done|].
  rewrite numbered_pass_S.
  destruct (lookup_lt_is_Some_2 repl i) as [val ->]; [lia|].
  rewrite bind_Some, replace_all_absent by (apply Hs; lia).
  rewrite bind_Some. apply IH; [lia|]. intros j Hj. apply Hs. lia.
Qed.

Section Segments.
Implicit Types ph val s u v w : wstring.

Lemma occurs_nil ph : occurs ph [] → ph = [].
Proof.
  intros (a & b & H). symmetry in H.
  apply app_eq_nil in H as [_ H]. by apply app_eq_nil in H as [H _].
Qed.

Lemma occurs_cons_inv ph d s :
  occurs ph (d :: s) → starts_with ph (d :: s) = true ∨ occurs ph s.
Proof.
  intros (a & b & H). destruct a as [|d' a]; simpl in H.
  - left. apply starts_with_prefix. eauto.
  - right. injection H as _ ->. by exists a, b.
Qed.

Lemma occurs_starts_with ph s : starts_with ph s = true → occurs ph s.
Proof. intros [v ->]%starts_with_prefix. by exists [], v. Qed.

(** No occurrence runs over a unit that the needle has at most as its
    first one: it ends before that unit or starts at it or after it. *)
Lemma occurs_boundary ph c u w :
  c ∉ tail ph → occurs ph (u ++ c :: w) → occurs ph u ∨ occurs ph (c :: w).
Proof.
  intros Hc. induction u as [|d u IH]; simpl; intros Ho; [by right|].
  apply occurs_cons_inv in Ho as [Ho|Ho].
  - apply (starts_with_app_inv ph (d :: u)) in Ho as [Ho|[Hl Ho]].
    + left. by apply occurs_starts_with.
    + destruct ph as [|x ph]; [simpl in Hl; lia|]. simpl in *.
      destruct (drop (length u) ph) as [|y rest] eqn:D.
      { apply (f_equal length) in D. rewrite length_drop in D.
        simpl in D. lia. }
      simpl in Ho. apply andb_true_iff in Ho as [->%N.eqb_eq _].
      exfalso. apply Hc. apply (subseteq_drop (length u)).
      rewrite D. set_solver.
  - destruct (IH Ho) as [?|?]; [left | by right]. by apply occurs_cons.
Qed.

(** A unit that is not in the needle separates the occurrences on its two
    sides. *)
Lemma occurs_separated ph c u w :
  c ∉ ph → occurs ph (u ++ c :: w) → occurs ph u ∨ occurs ph w.
Proof.
  intros Hc Ho. destruct ph as [|x ph]; [left; by exists [], u |].
  apply occurs_boundary in Ho as [Ho|Ho]; [by left | | set_solver].
  apply occurs_cons_inv in Ho as [Ho|Ho]; [|by right].
  simpl in Ho. apply andb_true_iff in Ho as [->%N.eqb_eq _]. set_solver.
Qed.

(** An occurrence starts with the first unit of the needle, so it cannot
    start in a text that has no such unit. *)
Lemma occurs_skip c ph u w :
  c ∉ u → occurs (c :: ph) (u ++ w) → occurs (c :: ph) w.
Proof.
  induction u as [|d u IH]; simpl; [done|].
  rewrite not_elem_of_cons. intros [Hd Hu] Ho.
  apply occurs_cons_inv in Ho as [Ho|Ho]; [|by apply IH].
  simpl in Ho. apply andb_true_iff in Ho as [Hcd _].
  by apply N.eqb_eq in Hcd.
Qed.

Lemma starts_with_app_cancel a b s :
  starts_with (a ++ b) (a ++ s) = starts_with b s.
Proof. induction a as [|c a IH]; simpl; [done|]. by rewrite N.eqb_refl. Qed.

(** The whole loop on a string cut at the needle: every needle gives way
    to [val], whatever [val] is made of, since what the loop inserts is
    behind the scan position. *)
Lemma replace_all_join ph val segs :
  head_unique ph → Forall (λ u, ¬ occurs ph u) segs →
  replace_all ph val (join ph segs) = Some (join val segs).
Proof.
  intros Hph. induction 1 as [|u rest Hu Hrest IH]; simpl.
  - apply replace_all_absent. intros ->%occurs_nil. done.
  - destruct rest as [|u' rest]; [by apply replace_all_absent|].
    rewrite replace_all_first by done. by rewrite IH.
Qed.

(** Every string is cut at the needle into segments without it. *)
Lemma split_at_needle ph s :
  ph ≠ [] →
  ∃ segs, segs ≠ [] ∧ Forall (λ u, ¬ occurs ph u) segs ∧ s = join ph segs.
Proof.
  intros Hph. remember (length s) as n eqn:Hn. revert s Hn.
  induction n as [n IH] using lt_wf_ind. intros s ->.
  destruct (find_at ph s 0) as [q|] eqn:F.
  - destruct (find_at_Some _ _ _ F) as (Hq & Hl & Hfirst).
    assert (0 < length ph) by (destruct ph; [done | simpl; lia]).
    destruct (IH (length (drop (q + length ph) s))) with
      (s := drop (q + length ph) s) as (segs & Hne & Hsegs & Hs);
      [rewrite length_drop; lia | done |].
    exists (take q s :: segs). split; [done|]. split.
    + constructor; [|done]. intros (a & b & Hab).
      assert (Hk : length a < q).
      { apply (f_equal length) in Hab.
        rewrite length_take, !length_app in Hab. lia. }
      specialize (Hfirst _ Hk).
      rewrite <- (take_drop q s), Hab, <- !app_assoc, drop_app_length,
        starts_with_app in Hfirst. done.
    + simpl. destruct segs as [|u' segs']; [done|]. rewrite <- Hs.
      apply starts_with_prefix in Hq as [v Hv].
      rewrite <- drop_drop, Hv, drop_app_length.
      by rewrite <- Hv, take_drop.
  - exists [s]. split; [done|]. split; [|done].
    constructor; [by apply find_at_None | constructor].
Qed.

End Segments.

(** ** Properties of [get] *)

Lemma uint_digits_range d c : c ∈ uint_digits d → (48 ≤ c ≤ 57)%N.
Proof.
  induction d; simpl; rewrite ?elem_of_cons;
    try (intros [->|?]; [lia | by auto]).
  by intros ?%elem_of_nil.
Qed.

Lemma render_eq tmpl repl :
  render tmpl repl
  = replace_all br CRLF tmpl ≫= λ r1,
      numbered_pass (length repl) repl r1 ≫=
        replace_all base (bare_value repl).
Proof. reflexivity. Qed.

Lemma render_no_placeholder tmpl repl :
  ¬ occurs br tmpl → ¬ occurs base tmpl → render tmpl repl = Some tmpl.
Proof.
  intros Hbr Hbase.
  rewrite render_eq, replace_all_absent, bind_Some by done.
  rewrite numbered_pass_absent, bind_Some;
    [by apply replace_all_absent | done |].
  intros j _. by apply no_base_no_token.
Qed.

(** C10.  A template in which neither the line-break marker [<br/>] nor the
    base string [$REPLACE_STRING] occurs is returned unchanged, whatever the
    replacement list is. *)
Theorem get_no_placeholder table id tmpl repl :
  table !! id = Some tmpl →
  ¬ occurs br tmpl → ¬ occurs base tmpl →
  get table id repl = Some tmpl.
Proof.
  intros Hid Hbr Hbase. unfold get. rewrite Hid.
  by apply render_no_placeholder.
Qed.

Lemma get_no_placeholder_witness :
  get {[ L "IDC_OK" := L "Replace All" ]} (L "IDC_OK") [L "x"; L "y"]
  = Some (L "Replace All").
Proof.
  apply get_no_placeholder.
  - vm_compute. reflexivity.
  - apply find_at_None. vm_compute. reflexivity.
  - apply find_at_None. vm_compute. reflexivity.
Defined.

(** C8.  An identifier that is not in the table is returned as it is, for
    every replacement list; and [get] returns a string on every input: none
    of its loops runs forever and there is no error result. *)
Theorem get_missing_id table id repl :
  (table !! id = None → get table id repl = Some id) ∧
  (∃ s, get table id repl = Some s).
Proof.
  split.
  - intros Hid. unfold get. by rewrite Hid.
  - apply get_total.
Qed.

Lemma get_missing_id_witness :
  get {[ L "IDC_OK" := L "Replace All" ]} (L "IDC_MISSING") [L "x"]
  = Some (L "IDC_MISSING").
Proof.
  apply (proj1 (get_missing_id _ _ _)). vm_compute. reflexivity.
Defined.

Lemma CRLF_not_in_br : (13%N ∉ br) ∧ (10%N ∉ br).
Proof. split; apply (bool_decide_unpack _); by vm_compute. Qed.

Lemma join_CRLF_no_br segs :
  Forall (λ u, ¬ occurs br u) segs → ¬ occurs br (join CRLF segs).
Proof.
  destruct CRLF_not_in_br as [Hcr Hlf].
  induction 1 as [|u rest Hu Hrest IH]; simpl.
  - by intros ?%occurs_nil.
  - destruct rest as [|u' rest]; [done|].
    change (u ++ CRLF ++ join CRLF (u' :: rest))
      with (u ++ 13%N :: ([] ++ 10%N :: join CRLF (u' :: rest))).
    intros [?|Ho]%occurs_separated; [done | | done].
    apply (occurs_separated br 10%N []) in Ho as [?%occurs_nil|?]; done.
Qed.

Lemma join_CRLF_no_base segs :
  Forall (λ u, ¬ occurs base u) segs → ¬ occurs base (join CRLF segs).
Proof.
  assert (Hcr : 13%N ∉ base) by (apply (bool_decide_unpack _); by vm_compute).
  assert (Hlf : 10%N ∉ base) by (apply (bool_decide_unpack _); by vm_compute).
  induction 1 as [|u rest Hu Hrest IH]; simpl.
  - by intros ?%occurs_nil.
  - destruct rest as [|u' rest]; [done|].
    change (u ++ CRLF ++ join CRLF (u' :: rest))
      with (u ++ 13%N :: ([] ++ 10%N :: join CRLF (u' :: rest))).
    intros [?|Ho]%occurs_separated; [done | | done].
    apply (occurs_separated base 10%N []) in Ho as [?%occurs_nil|?]; done.
Qed.

(** C9.  The first pass replaces every [<br/>] by the two units 13 and 10,
    carriage return and line feed: a template cut at its markers into
    marker-free segments comes out as the same segments with CR LF between
    them, every template can be cut this way, and no marker is left in the
    output; when the segments have no [$REPLACE_STRING] either, this is what
    [get] returns.  The scan goes from left to right and, after a
    replacement at [q], goes on at [q + 2], behind the two inserted units.
    In particular the template [a<br/>b] with no replacement value is
    rendered as [a], CR, LF, [b]. *)
Theorem line_break_pass :
  (∀ segs, Forall (λ u, ¬ occurs (L "<br/>") u) segs →
     replace_all br CRLF (join (L "<br/>") segs)
     = Some (join [13%N; 10%N] segs)) ∧
  (∀ s, ∃ segs,
     Forall (λ u, ¬ occurs (L "<br/>") u) segs ∧ s = join (L "<br/>") segs) ∧
  (∀ s, ∃ r, replace_all br CRLF s = Some r ∧ ¬ occurs (L "<br/>") r) ∧
  (∀ segs repl,
     Forall (λ u, ¬ occurs (L "<br/>") u) segs →
     Forall (λ u, ¬ occurs (L "$REPLACE_STRING") u) segs →
     render (join (L "<br/>") segs) repl = Some (join [13%N; 10%N] segs)) ∧
  (∀ fuel result p q, find result (L "<br/>") p = Some q →
     replace_loop (S fuel) br CRLF result p
     = replace_loop fuel br CRLF
         (replace result q 5 [13%N; 10%N]) (q + 2)) ∧
  (∀ table id, table !! id = Some (L "a<br/>b") →
     get table id [] = Some (L "a" ++ [13%N; 10%N] ++ L "b")).
Proof.
  change (L "<br/>") with br. change (L "$REPLACE_STRING") with base.
  change [13%N; 10%N] with CRLF.
  split; [|split; [|split; [|split; [|split]]]].
  - intros segs Hsegs. apply replace_all_join; [apply br_head_unique | done].
  - intros s. destruct (split_at_needle br s) as (segs & _ & ? & ?); eauto.
  - intros s. destruct (split_at_needle br s) as (segs & _ & Hsegs & ->);
      [done|].
    exists (join CRLF segs). split; [|by apply join_CRLF_no_br].
    apply replace_all_join; [apply br_head_unique | done].
  - intros segs repl Hbr Hbase.
    rewrite render_eq, replace_all_join, bind_Some;
      [| apply br_head_unique | done].
    pose proof (join_CRLF_no_base segs Hbase) as Hout.
    rewrite numbered_pass_absent, bind_Some;
      [by apply replace_all_absent | done |].
    intros j _. by apply no_base_no_token.
  - intros fuel result p q Hq. simpl. by rewrite Hq.
  - intros table id Hid. unfold get. rewrite Hid. vm_compute. reflexivity.
Qed.

Lemma line_break_pass_witness :
  replace_all br CRLF (L "one<br/>two<br/><br/>three")
  = Some (L "one" ++ [13%N; 10%N] ++ L "two" ++ [13%N; 10%N]
          ++ [13%N; 10%N] ++ L "three").
Proof.
  apply (proj1 line_break_pass [L "one"; L "two"; []; L "three"]).
  repeat constructor; apply find_at_None; vm_compute; reflexivity.
Defined.

Lemma replace_all_nil ph val : ph ≠ [] → replace_all ph val [] = Some [].
Proof. intros Hph. apply replace_all_absent. by intros ?%occurs_nil. Qed.

(** Replacing a string that is the needle itself. *)
Lemma replace_all_whole ph val :
  head_unique ph → replace_all ph val ph = Some val.
Proof.
  intros Hph.
  pose proof (replace_all_first ph val [] [] Hph) as H.
  rewrite app_nil_r in H. simpl in H. rewrite H.
  - rewrite replace_all_nil by by apply head_unique_nonempty.
    simpl. by rewrite app_nil_r.
  - intros ->%occurs_nil. done.
Qed.

(** C7.  With ten replacement values the template [$REPLACE_STRING10] is
    handled by the first turn of the numbered pass, the one for index 10: the
    whole token gives way to the tenth value, so the later turn for index 1
    never sees [$REPLACE_STRING1] followed by [0].  What [get] returns is
    what the remaining turns, for the indices 9 down to 1 and for the bare
    token, make of the tenth value; it is the tenth value itself when this
    has no [$REPLACE_STRING] in it. *)
Theorem numbered_ten_first (repl : list wstring) (v10 : wstring) :
  length repl = 10 → repl !! 9 = Some v10 →
  replace_all (base ++ to_wstring 10) v10 (L "$REPLACE_STRING10") = Some v10 ∧
  render (L "$REPLACE_STRING10") repl
    = numbered_pass 9 repl v10 ≫= replace_all base (bare_value repl) ∧
  (¬ occurs base v10 → render (L "$REPLACE_STRING10") repl = Some v10).
Proof.
  intros Hlen H10.
  assert (Hstep :
    replace_all (base ++ to_wstring 10) v10 (L "$REPLACE_STRING10") = Some v10).
  { change (L "$REPLACE_STRING10") with (base ++ to_wstring 10).
    apply replace_all_whole, token_head_unique. }
  assert (Hrender : render (L "$REPLACE_STRING10") repl
    = numbered_pass 9 repl v10 ≫= replace_all base (bare_value repl)).
  { rewrite render_eq, replace_all_absent, bind_Some
      by (apply find_at_None; vm_compute; reflexivity).
    rewrite Hlen, numbered_pass_S, H10, bind_Some, Hstep, bind_Some. done. }
  split; [done|]. split; [done|].
  intros Hv. rewrite Hrender, numbered_pass_absent, bind_Some.
  - by apply replace_all_absent.
  - lia.
  - intros j _. by apply no_base_no_token.
Qed.

Lemma numbered_ten_first_witness :
  render (L "$REPLACE_STRING10")
    [L "v1"; L "v2"; L "v3"; L "v4"; L "v5";
     L "v6"; L "v7"; L "v8"; L "v9"; L "v10"]
  = Some (L "v10").
Proof.
  apply (numbered_ten_first _ (L "v10")).
  - reflexivity.
  - reflexivity.
  - apply find_at_None. vm_compute. reflexivity.
Defined.

(** C1 (as the code has it).  The numbered token [$REPLACE_STRING1] stands
    for the first replacement value, [repl[0]], the same value as the bare
    token: the template [$REPLACE_STRING1$REPLACE_STRING] with the values
    [a] and [b] is rendered as [a] twice; with ["A"] and ["B"] as ["AA"]. *)
Theorem numbered_one_then_bare (a b : wstring) :
  ¬ occurs base a →
  render (L "$REPLACE_STRING1$REPLACE_STRING") [a; b] = Some (a ++ a).
Proof.
  intros Ha.
  rewrite render_eq, replace_all_absent, bind_Some
    by (apply find_at_None; vm_compute; reflexivity).
  change (length [a; b]) with 2.
  rewrite numbered_pass_S. change ([a; b] !! 1) with (Some b).
  rewrite bind_Some, replace_all_absent, bind_Some
    by (apply find_at_None; vm_compute; reflexivity).
  rewrite numbered_pass_S. change ([a; b] !! 0) with (Some a).
  rewrite bind_Some.
  change (L "$REPLACE_STRING1$REPLACE_STRING")
    with ([] ++ (base ++ to_wstring 1) ++ base).
  rewrite replace_all_first;
    [| apply token_head_unique | by intros ?%occurs_nil].
  rewrite replace_all_absent by (apply find_at_None; vm_compute; reflexivity).
  simpl. unfold bare_value.
  rewrite <- (app_nil_r base) at 2.
  rewrite replace_all_first; [| apply base_head_unique | done].
  rewrite replace_all_nil by done. simpl. by rewrite app_nil_r.
Qed.

Lemma numbered_one_then_bare_witness :
  render (L "$REPLACE_STRING1$REPLACE_STRING") [L "A"; L "B"] = Some (L "AA").
Proof.
  apply (numbered_one_then_bare (L "A") (L "B")).
  apply find_at_None. vm_compute. reflexivity.
Defined.

(** C1 as stated fails: the rendering of [$REPLACE_STRING1$REPLACE_STRING]
    with ["A"] and ["B"] is ["AA"], which is not ["BA"]. *)
Lemma numbered_precedence_counterexample :
  get {[ L "id" := L "$REPLACE_STRING1$REPLACE_STRING" ]} (L "id")
    [L "A"; L "B"] = Some (L "AA")
  ∧ L "AA" ≠ L "BA".
Proof. split; [vm_compute; reflexivity | discriminate]. Qed.

(** The text after the [$] of a token: [REPLACE_STRING] and the numeral. *)
Lemma no_dollar_after_base i : dollar ∉ L "REPLACE_STRING" ++ to_wstring i.
Proof.
  rewrite not_elem_of_app. split.
  - apply (bool_decide_unpack _). by vm_compute.
  - apply uint_digits_no_dollar.
Qed.

Lemma no_lt_in_token i : 60%N ∉ base ++ to_wstring i.
Proof.
  rewrite not_elem_of_app. split.
  - apply (bool_decide_unpack _). by vm_compute.
  - intros ?%uint_digits_range. lia.
Qed.

Section OneToken.
(** A template whose only placeholder is one numbered token. *)
Variables (pre post : wstring) (i : nat).
Hypothesis pre_br : ¬ occurs br pre.
Hypothesis post_br : ¬ occurs br post.
Hypothesis pre_base : ¬ occurs base pre.
Hypothesis post_base : ¬ occurs base post.

Let tmpl : wstring := pre ++ base ++ to_wstring i ++ post.

Lemma one_token_eq :
  tmpl = pre ++ dollar :: (L "REPLACE_STRING" ++ to_wstring i) ++ post.
Proof.
  unfold tmpl. rewrite base_eq, <- (app_assoc (L "REPLACE_STRING")). done.
Qed.

Lemma one_token_no_br : ¬ occurs br tmpl.
Proof.
  rewrite one_token_eq.
  intros [?|Ho]%occurs_separated; [done | |].
  - apply occurs_skip in Ho; [done|].
    pose proof (no_lt_in_token i) as Hlt. rewrite base_eq in Hlt.
    by apply not_elem_of_cons in Hlt as [_ ?].
  - apply (bool_decide_unpack _). by vm_compute.
Qed.

(** A token for [j] is in the template only as a prefix of the one token,
    that is when the numeral of [j] starts the text after the base. *)
Lemma one_token_occurs j :
  occurs (base ++ to_wstring j) tmpl →
  starts_with (to_wstring j) (to_wstring i ++ post) = true.
Proof.
  rewrite one_token_eq. intros Ho.
  apply occurs_boundary in Ho as [Ho|Ho];
    [| | rewrite base_eq; by apply no_dollar_after_base].
  - exfalso. apply pre_base.
    by apply (occurs_longer _ (to_wstring j)).
  - apply occurs_cons_inv in Ho as [Ho|Ho].
    + rewrite <- (starts_with_app_cancel base).
      rewrite <- Ho. f_equal.
    + exfalso.
      apply occurs_skip in Ho; [|by apply no_dollar_after_base].
      apply post_base. by apply (occurs_longer _ (to_wstring j)).
Qed.

(** The bare pass takes the base string off the token. *)
Lemma one_token_bare val :
  replace_all base val tmpl = Some (pre ++ val ++ to_wstring i ++ post).
Proof.
  unfold tmpl.
  rewrite replace_all_first; [| apply base_head_unique | done].
  rewrite replace_all_absent; [done|].
  intros Ho. rewrite base_eq in Ho.
  apply occurs_skip in Ho; [|apply uint_digits_no_dollar].
  by rewrite <- base_eq in Ho.
Qed.

Lemma one_token_render repl :
  (∀ j, 1 ≤ j ≤ length repl →
     starts_with (to_wstring j) (to_wstring i ++ post) = false) →
  render tmpl repl = Some (pre ++ bare_value repl ++ to_wstring i ++ post).
Proof.
  intros Hnum.
  rewrite render_eq, replace_all_absent, bind_Some by apply one_token_no_br.
  rewrite numbered_pass_absent, bind_Some; [apply one_token_bare | done |].
  intros j Hj Ho%one_token_occurs. by rewrite Hnum in Ho.
Qed.

End OneToken.

(** The turns of the numbered pass for indices whose token is not in the
    string change nothing, so the pass can be entered further down. *)
Lemma numbered_pass_skip n k repl s :
  k ≤ n → n ≤ length repl →
  (∀ j, k < j ≤ n → ¬ occurs (base ++ to_wstring j) s) →
  numbered_pass n repl s = numbered_pass k repl s.
Proof.
  induction n as [|n IH]; intros Hk Hn Hs.
  - by replace k with 0 by lia.
  - destruct (decide (k = S n)) as [->|Hne]; [done|].
    rewrite numbered_pass_S.
    destruct (lookup_lt_is_Some_2 repl n) as [val ->]; [lia|].
    rewrite bind_Some, replace_all_absent, bind_Some by (apply Hs; lia).
    apply IH; [lia..|]. intros j Hj. apply Hs. lia.
Qed.

Lemma no_dollar_app3 (a b c : wstring) :
  dollar ∉ a → dollar ∉ b → dollar ∉ c → dollar ∉ a ++ b ++ c.
Proof. intros. rewrite !not_elem_of_app. done. Qed.

(** The turn of the numbered pass for [$REPLACE_STRING<m+1>], when the text
    after the base string starts with this numeral and with the numeral of
    no larger index of the list: it takes the base string and the numeral
    and leaves what follows. *)
Lemma one_token_numbered (pre post rest v : wstring) (i m : nat)
  (repl : list wstring) :
  ¬ occurs br pre → ¬ occurs br post →
  dollar ∉ pre → dollar ∉ post → dollar ∉ v →
  repl !! m = Some v →
  to_wstring i ++ post = to_wstring (S m) ++ rest →
  (∀ j, S m < j ≤ length repl →
     starts_with (to_wstring j) (to_wstring i ++ post) = false) →
  render (pre ++ base ++ to_wstring i ++ post) repl = Some (pre ++ v ++ rest).
Proof.
  intros Hbr_pre Hbr_post Hpre Hpost Hval Hv Hrest Hmax.
  pose proof (lookup_lt_Some _ _ _ Hv) as Hm.
  pose proof (no_dollar_no_base _ Hpre) as Hbase_pre.
  pose proof (no_dollar_no_base _ Hpost) as Hbase_post.
  assert (Hdollar_rest : dollar ∉ rest).
  { intros Hin.
    assert (Hin' : dollar ∈ to_wstring i ++ post)
      by (rewrite Hrest; set_solver).
    apply elem_of_app in Hin' as [Hin'|Hin']; [|done].
    by apply uint_digits_no_dollar in Hin'. }
  rewrite render_eq, replace_all_absent, bind_Some
    by by apply one_token_no_br.
  rewrite (numbered_pass_skip (length repl) (S m)); [|lia|done|].
  - rewrite numbered_pass_S, Hv, bind_Some, Hrest.
    rewrite (app_assoc base). rewrite replace_all_first;
      [| apply token_head_unique | by apply no_base_no_token].
    rewrite replace_all_absent
      by by apply no_base_no_token, no_dollar_no_base.
    change ((λ r, pre ++ v ++ r) <$> Some rest) with (Some (pre ++ v ++ rest)).
    rewrite bind_Some.
    assert (Hout : ¬ occurs base (pre ++ v ++ rest))
      by by apply no_dollar_no_base, no_dollar_app3.
    rewrite numbered_pass_absent, bind_Some;
      [by apply replace_all_absent | lia |].
    intros j _. by apply no_base_no_token.
  - intros j Hj Ho.
    apply one_token_occurs in Ho; [|done..].
    by rewrite Hmax in Ho.
Qed.

(** C2 (as the code has it).  A numbered token whose index is beyond the
    replacement list is no error, and [get] returns a string; but the token
    is in general not left as it is.  For a template with this one
    placeholder there are two cases.  When no numeral from 1 to the length
    of the list starts the text after the base string, the numbered pass
    leaves the token, and the bare pass, which looks for [$REPLACE_STRING]
    alone, replaces the base string of the token by the first replacement
    value (by nothing when the list is empty): the digits stay.  When some
    numeral of the list does start that text, as 1 starts 10, the turn of
    the numbered pass for the largest such index replaces the base string
    and this numeral by the value of that index, and the remaining digits
    stay (here the template has no other [$] and the value has none). *)
Theorem token_beyond_list (pre post : wstring) (i : nat) (repl : list wstring) :
  length repl < i →
  ¬ occurs (L "<br/>") pre → ¬ occurs (L "<br/>") post →
  ¬ occurs (L "$REPLACE_STRING") pre → ¬ occurs (L "$REPLACE_STRING") post →
  (∃ r, render (pre ++ L "$REPLACE_STRING" ++ to_wstring i ++ post) repl
        = Some r) ∧
  ((∀ j, 1 ≤ j ≤ length repl →
      starts_with (to_wstring j) (to_wstring i ++ post) = false) →
   render (pre ++ L "$REPLACE_STRING" ++ to_wstring i ++ post) repl
   = Some (pre ++ bare_value repl ++ to_wstring i ++ post)) ∧
  (∀ m v rest,
     repl !! m = Some v →
     to_wstring i ++ post = to_wstring (S m) ++ rest →
     (∀ j, S m < j ≤ length repl →
        starts_with (to_wstring j) (to_wstring i ++ post) = false) →
     36%N ∉ pre → 36%N ∉ post → 36%N ∉ v →
     render (pre ++ L "$REPLACE_STRING" ++ to_wstring i ++ post) repl
     = Some (pre ++ v ++ rest)).
Proof.
  change (L "<br/>") with br. change (L "$REPLACE_STRING") with base.
  change 36%N with dollar.
  intros _ Hbr_pre Hbr_post Hbase_pre Hbase_post.
  split; [apply render_total|]. split.
  - intros Hnum. by apply one_token_render.
  - intros m v rest Hv Hrest Hmax Hpre Hpost Hval.
    by apply (one_token_numbered pre post rest v i m repl).
Qed.

Lemma token_beyond_list_witness :
  render (L "page $REPLACE_STRING5 of many") [L "x"; L "y"]
  = Some (L "page x5 of many")
  ∧ render (L "$REPLACE_STRING10") [L "v"] = Some (L "v0")
  ∧ render (L "see $REPLACE_STRING12.")
      [L "a"; L "b"; L "c"; L "d"; L "e"; L "f"; L "g"; L "h"; L "i"; L "j"]
    = Some (L "see a2.").
Proof.
  split; [|split].
  - refine (proj1 (proj2 (token_beyond_list (L "page ") (L " of many") 5
                            [L "x"; L "y"] _ _ _ _ _)) _).
    + simpl. lia.
    + apply find_at_None. vm_compute. reflexivity.
    + apply find_at_None. vm_compute. reflexivity.
    + apply find_at_None. vm_compute. reflexivity.
    + apply find_at_None. vm_compute. reflexivity.
    + intros j Hj. simpl in Hj.
      assert (j = 1 ∨ j = 2) as [-> | ->] by lia; vm_compute; reflexivity.
  - refine (proj2 (proj2 (token_beyond_list [] [] 10 [L "v"] _ _ _ _ _))
              0 (L "v") (L "0") _ _ _ _ _ _).
    + simpl. lia.
    + apply find_at_None. vm_compute. reflexivity.
    + apply find_at_None. vm_compute. reflexivity.
    + apply find_at_None. vm_compute. reflexivity.
    + apply find_at_None. vm_compute. reflexivity.
    + reflexivity.
    + reflexivity.
    + intros j Hj. simpl in Hj. lia.
    + apply (bool_decide_unpack _). by vm_compute.
    + apply (bool_decide_unpack _). by vm_compute.
    + apply (bool_decide_unpack _). by vm_compute.
  - refine (proj2 (proj2 (token_beyond_list (L "see ") (L ".") 12
              [L "a"; L "b"; L "c"; L "d"; L "e"; L "f"; L "g"; L "h";
               L "i"; L "j"] _ _ _ _ _))
              0 (L "a") (L "2.") _ _ _ _ _ _).
    + simpl. lia.
    + apply find_at_None. vm_compute. reflexivity.
    + apply find_at_None. vm_compute. reflexivity.
    + apply find_at_None. vm_compute. reflexivity.
    + apply find_at_None. vm_compute. reflexivity.
    + reflexivity.
    + reflexivity.
    + intros j Hj. simpl in Hj.
      assert (j = 2 ∨ j = 3 ∨ j = 4 ∨ j = 5 ∨ j = 6 ∨ j = 7 ∨ j = 8 ∨ j = 9
              ∨ j = 10) as Hc by lia.
      repeat (destruct Hc as [-> | Hc]; [vm_compute; reflexivity|]).
      subst j. vm_compute. reflexivity.
    + apply (bool_decide_unpack _). by vm_compute.
    + apply (bool_decide_unpack _). by vm_compute.
    + apply (bool_decide_unpack _). by vm_compute.
Defined.

(** C2 as stated fails: [$REPLACE_STRING5] with the one value ["x"] is
    rendered as ["x5"], in which the token is not to be found. *)
Lemma token_beyond_list_counterexample :
  length [L "x"] < 5
  ∧ occurs (base ++ to_wstring 5) (L "$REPLACE_STRING5")
  ∧ get {[ L "id" := L "$REPLACE_STRING5" ]} (L "id") [L "x"] = Some (L "x5")
  ∧ ¬ occurs (base ++ to_wstring 5) (L "x5").
Proof.
  split; [simpl; lia|]. split; [by exists [], [] |].
  split; [vm_compute; reflexivity|].
  apply find_at_None. vm_compute. reflexivity.
Qed.

Section KeyProperties.
Implicit Types id r : wstring.
Implicit Types repl : list wstring.

Lemma foldl_key acc repl :
  foldl (λ key r, (key ++ r) ++ [US]) acc repl = acc ++ key_tail repl.
Proof.
  revert acc. induction repl as [|r repl IH]; intros acc; simpl.
  - by rewrite app_nil_r.
  - rewrite IH, <- !app_assoc. done.
Qed.

Lemma makeKey_eq id repl : makeKey id repl = id ++ US :: key_tail repl.
Proof. unfold makeKey. rewrite foldl_key, <- app_assoc. done. Qed.

(** Two separator-free texts followed by the separator: the first
    separator tells where the first text ends. *)
Lemma split_at_US a b x y :
  US ∉ a → US ∉ b → a ++ US :: x = b ++ US :: y → a = b ∧ x = y.
Proof.
  revert b. induction a as [|c a IH]; intros [|d b] Ha Hb; simpl.
  - by intros [= ->].
  - intros [= <- _]. set_solver.
  - intros [= E _]. by apply not_elem_of_cons in Ha as [? _].
  - intros [= -> E]. apply not_elem_of_cons in Ha as [_ Ha].
    apply not_elem_of_cons in Hb as [_ Hb].
    destruct (IH b Ha Hb E) as [-> ->]. done.
Qed.

Lemma key_tail_inj repl1 repl2 :
  Forall (λ r, US ∉ r) repl1 → Forall (λ r, US ∉ r) repl2 →
  key_tail repl1 = key_tail repl2 → repl1 = repl2.
Proof.
  intros H1. revert repl2.
  induction H1 as [|r1 repl1 Hr1 Hrest IH]; intros repl2 H2; simpl.
  - destruct H2 as [|r2 repl2 Hr2 H2]; [done|]. simpl. intros E.
    by destruct r2.
  - destruct H2 as [|r2 repl2 Hr2 H2]; simpl; intros E.
    + by destruct r1.
    + apply split_at_US in E as [-> E]; [|done..].
      f_equal. by apply IH.
Qed.

End KeyProperties.

Lemma makeKey_inj (id1 id2 : wstring) (repl1 repl2 : list wstring) :
  sep_free id1 repl1 → sep_free id2 repl2 →
  makeKey id1 repl1 = makeKey id2 repl2 → id1 = id2 ∧ repl1 = repl2.
Proof.
  intros [Hid1 Hr1] [Hid2 Hr2]. rewrite !makeKey_eq.
  intros [-> Htail]%split_at_US; [|done..].
  split; [done|]. by apply key_tail_inj.
Qed.



(** ** Loading a language and the cache *)

Section ManagerProperties.
Variable languageMap : gmap wstring wstring.
Variable IniFileCache : Type.
Variable ini_load : wstring → IniFileCache → bool * IniFileCache.
Variable ini_raw : IniFileCache → gmap wstring (gmap wstring wstring).

Local Abbreviation loadFromIni :=
  (loadFromIni languageMap IniFileCache ini_load ini_raw).
Local Abbreviation Process := (Process IniFileCache).

Implicit Types st : Process.
Implicit Types table cache kvs : gmap wstring wstring.

(** The overlay of a section on a table, key by key. *)
Lemma lookup_overlay table kvs k :
  overlay table kvs !! k
  = match kvs !! k with
    | Some v => Some v
    | None => table !! k
    end.
Proof.
  unfold overlay.
  apply (map_fold_weak_ind
           (λ r m, r !! k = match m !! k with
                            | Some v => Some v
                            | None => table !! k
                            end)).
  - by rewrite lookup_empty.
  - intros i x m r _ IH. rewrite !lookup_insert.
    destruct (decide (i = k)); done.
Qed.

Lemma coherent_empty table : coherent table ∅.
Proof. intros id repl v _. by rewrite lookup_empty. Qed.

Lemma loadFromIni_true iniFile languageCode st st' :
  loadFromIni iniFile languageCode st = (true, st') →
  ∃ ini, ini_load iniFile (_cache (manager st)) = (true, ini) ∧
    _cache (manager st') = ini ∧ lpcwCache st' = ∅ ∧
    _table (manager st')
    = match ini_raw ini !! languageCode with
      | Some kvs => overlay languageMap kvs
      | None => languageMap
      end.
Proof.
  unfold loadFromIni.
  destruct (ini_load iniFile (_cache (manager st))) as [[] ini];
    intros [= <-]; by exists ini.
Qed.

Lemma loadFromIni_false iniFile languageCode st st' :
  loadFromIni iniFile languageCode st = (false, st') →
  lpcwCache st' = lpcwCache st ∧ _table (manager st') = languageMap.
Proof.
  unfold loadFromIni.
  destruct (ini_load iniFile (_cache (manager st))) as [[] ini];
    by intros [= <-].
Qed.

Lemma getLPCW_hit id repl st v :
  lpcwCache st !! makeKey id repl = Some v →
  getLPCW id repl st = Some (v, st).
Proof. intros Hv. unfold getLPCW. by rewrite Hv. Qed.

Lemma getLPCW_miss id repl st :
  lpcwCache st !! makeKey id repl = None →
  ∃ v, get (_table (manager st)) id repl = Some v ∧
    getLPCW id repl st
    = Some (v, {| manager := manager st;
                  lpcwCache := <[makeKey id repl := v]> (lpcwCache st) |}).
Proof.
  intros Hv. unfold getLPCW. rewrite Hv.
  destruct (get_total (_table (manager st)) id repl) as [v Hget].
  exists v. by rewrite Hget.
Qed.

(** C3.  [loadFromIni] empties the cache exactly on the path that returns
    [true]: after it every key is a miss, so the next [getLPCW] renders
    again with the new table.  On the path that returns [false] the cache
    is as it was, while the table is the built-in [languageMap] again, so
    every text that was in the cache is still what [getLPCW] returns for
    its key. *)
Theorem loadFromIni_cache iniFile languageCode st :
  let r := loadFromIni iniFile languageCode st in
  (r.1 = true →
     lpcwCache r.2 = ∅ ∧
     ∀ id repl, ∃ v,
       get (_table (manager r.2)) id repl = Some v ∧
       getLPCW id repl r.2
       = Some (v, {| manager := manager r.2;
                     lpcwCache := {[ makeKey id repl := v ]} |})) ∧
  (r.1 = false →
     lpcwCache r.2 = lpcwCache st ∧
     _table (manager r.2) = languageMap ∧
     ∀ id repl v, lpcwCache st !! makeKey id repl = Some v →
       getLPCW id repl r.2 = Some (v, r.2)).
Proof.
  intros r. destruct r as [ok st'] eqn:Hr. subst r. simpl. split.
  - intros ->. apply loadFromIni_true in Hr as (ini & _ & _ & Hc & _).
    split; [done|]. intros id repl.
    destruct (getLPCW_miss id repl st') as (v & Hget & Hv).
    { by rewrite Hc, lookup_empty. }
    exists v. split; [done|]. rewrite Hv, Hc. done.
  - intros ->. apply loadFromIni_false in Hr as [Hc Ht].
    split; [done|]. split; [done|].
    intros id repl v Hv. apply getLPCW_hit. by rewrite Hc.
Qed.

(** C6.  After [loadFromIni], whatever it returns, every key of the
    built-in table [languageMap] is a key of [_table].  When it returns
    [true] and the store has a section for the language code, a key of
    that section has the text of the section and any other key has what
    [languageMap] has for it; without such a section, and when it returns
    [false], [_table] is [languageMap]. *)
Theorem loadFromIni_table iniFile languageCode st :
  let r := loadFromIni iniFile languageCode st in
  let table' := _table (manager r.2) in
  (∀ k, is_Some (languageMap !! k) → is_Some (table' !! k)) ∧
  (r.1 = true →
     (∀ kvs, ini_raw (_cache (manager r.2)) !! languageCode = Some kvs →
        ∀ k, (∀ v, kvs !! k = Some v → table' !! k = Some v) ∧
             (kvs !! k = None → table' !! k = languageMap !! k)) ∧
     (ini_raw (_cache (manager r.2)) !! languageCode = None →
        table' = languageMap)) ∧
  (r.1 = false → table' = languageMap).
Proof.
  intros r table'. subst table'. destruct r as [[] st'] eqn:Hr; subst r; simpl.
  - apply loadFromIni_true in Hr as (ini & _ & -> & _ & ->).
    split; [|split; [intros _ | done]].
    + intros k Hk. destruct (ini_raw ini !! languageCode) as [kvs|]; [|done].
      rewrite lookup_overlay. destruct (kvs !! k); [by eexists | done].
    + split.
      * intros kvs ->. intros k. rewrite lookup_overlay.
        split; [by intros v -> | by intros ->].
      * by intros ->.
  - apply loadFromIni_false in Hr as [_ ->]. done.
Qed.

(** C4 (as the code has it).  The cache holds one text per key.  A call
    whose key is in the cache returns the stored text and changes nothing,
    whatever the table is; a call whose key is not in the cache stores the
    rendering of [get] under the key and returns it; after a call, every
    call with an equal key returns the same text.  The text is the one
    [get] returns when the identifier and the values are free of the
    separator and the cache is coherent with the table now loaded: every
    entry under the key of a separator-free identifier and list is what
    [get] returns for them.  An empty cache is coherent, and a call of
    [getLPCW] whose arguments are free of the separator keeps a coherent
    cache coherent. *)
Theorem getLPCW_memo id repl st :
  (∀ v, lpcwCache st !! makeKey id repl = Some v →
     getLPCW id repl st = Some (v, st)) ∧
  (lpcwCache st !! makeKey id repl = None →
     ∃ v, get (_table (manager st)) id repl = Some v ∧
       getLPCW id repl st
       = Some (v, {| manager := manager st;
                     lpcwCache := <[makeKey id repl := v]> (lpcwCache st) |})) ∧
  (∀ v st', getLPCW id repl st = Some (v, st') →
     manager st' = manager st ∧
     ∀ id' repl', makeKey id' repl' = makeKey id repl →
       getLPCW id' repl' st' = Some (v, st')) ∧
  (sep_free id repl →
   coherent (_table (manager st)) (lpcwCache st) →
   ∃ v st', getLPCW id repl st = Some (v, st') ∧
     get (_table (manager st)) id repl = Some v ∧
     coherent (_table (manager st')) (lpcwCache st')) ∧
  coherent (_table (manager st)) ∅.
Proof.
  split; [intros v; apply getLPCW_hit|].
  split; [apply getLPCW_miss|].
  split; [|split; [|apply coherent_empty]].
  - intros v st' Hcall.
    destruct (lpcwCache st !! makeKey id repl) as [w|] eqn:Hk.
    + rewrite (getLPCW_hit _ _ _ _ Hk) in Hcall. injection Hcall as <- <-.
      split; [done|]. intros id' repl' Heq. apply getLPCW_hit.
      by rewrite Heq.
    + destruct (getLPCW_miss _ _ _ Hk) as (w & _ & Hw).
      rewrite Hw in Hcall. injection Hcall as <- <-.
      split; [done|]. intros id' repl' Heq. apply getLPCW_hit.
      simpl. by rewrite Heq, lookup_insert_eq.
  - intros Hfree Hco.
    destruct (lpcwCache st !! makeKey id repl) as [w|] eqn:Hk.
    + exists w, st. split; [by apply getLPCW_hit|]. split; [|done].
      by apply Hco.
    + destruct (getLPCW_miss _ _ _ Hk) as (w & Hget & Hw).
      eexists w, _. split; [done|]. split; [done|]. simpl.
      intros id' repl' v' Hfree'. rewrite lookup_insert.
      destruct (decide (makeKey id repl = makeKey id' repl')) as [Heq|Hne].
      * apply makeKey_inj in Heq as [-> ->]; [|done..].
        by intros [= <-].
      * by apply Hco.
Qed.

End ManagerProperties.

Lemma loadFromIni_cache_witness :
  let st := (demo_loadFromIni (L "missing.ini") (L "german")
               demo_german_cached).2 in
  _table (manager st) = demo_english ∧
  getLPCW (L "greeting") [] st = Some (L "Hallo", st).
Proof.
  intros st.
  destruct (loadFromIni_cache demo_english _ demo_load demo_raw
              (L "missing.ini") (L "german") demo_german_cached)
    as [_ Hfalse].
  destruct Hfalse as (_ & Htable & Hkept); [vm_compute; reflexivity|].
  split; [exact Htable|].
  apply Hkept. vm_compute. reflexivity.
Defined.

Lemma loadFromIni_table_witness :
  _table (manager demo_german) !! L "greeting" = Some (L "Hallo") ∧
  _table (manager demo_german) !! L "farewell" = Some (L "Goodbye").
Proof.
  destruct (loadFromIni_table demo_english _ demo_load demo_raw
              (L "languages.ini") (L "german") demo_start)
    as (_ & Htrue & _).
  destruct Htrue as [Hsection _]; [vm_compute; reflexivity|].
  specialize (Hsection {[ L "greeting" := L "Hallo" ]}).
  split.
  - apply (Hsection ltac:(vm_compute; reflexivity) (L "greeting")).
    vm_compute. reflexivity.
  - etransitivity;
      [apply (Hsection ltac:(vm_compute; reflexivity) (L "farewell"));
       vm_compute; reflexivity |].
    vm_compute. reflexivity.
Defined.

Lemma getLPCW_memo_witness :
  ∃ v st',
    getLPCW (L "greeting") [L "x"] demo_german = Some (v, st') ∧
    get (_table (manager demo_german)) (L "greeting") [L "x"] = Some v ∧
    coherent (_table (manager st')) (lpcwCache st').
Proof.
  destruct (getLPCW_memo _ (L "greeting") [L "x"] demo_german)
    as (_ & _ & _ & Hget & Hempty).
  apply Hget.
  - split; [|repeat constructor]; apply (bool_decide_unpack _); by vm_compute.
  - exact Hempty.
Defined.

(** C4 as stated fails.  Keys collide once the separator is in an
    identifier or a value: after a call for ["a"] with the value ["b"], a
    call for the identifier [a], U+001F, [b] with no value returns the text
    stored by the first call, not the identifier that [get] returns for it;
    and in the other order the call for ["a"] with ["b"], whose arguments
    have no separator, returns the identifier stored by the call before it.
    And the cache outlives a load that fails: the German greeting is still
    returned through the cache when the table is the English one again. *)
Lemma getLPCW_counterexample :
  (∃ st1 st2,
     getLPCW (L "a") [L "b"] demo_collision = Some (L "T", st1) ∧
     getLPCW (L "a" ++ [US] ++ L "b") [] st1 = Some (L "T", st2) ∧
     get (_table (manager st1)) (L "a" ++ [US] ++ L "b") []
     = Some (L "a" ++ [US] ++ L "b") ∧
     L "T" ≠ L "a" ++ [US] ++ L "b") ∧
  (∃ st1 st2,
     getLPCW (L "a" ++ [US] ++ L "b") [] demo_collision
     = Some (L "a" ++ [US] ++ L "b", st1) ∧
     getLPCW (L "a") [L "b"] st1 = Some (L "a" ++ [US] ++ L "b", st2) ∧
     get (_table (manager st1)) (L "a") [L "b"] = Some (L "T") ∧
     L "a" ++ [US] ++ L "b" ≠ L "T") ∧
  (let st := (demo_loadFromIni (L "missing.ini") (L "german")
                demo_german_cached).2 in
   getLPCW (L "greeting") [] st = Some (L "Hallo", st) ∧
   get (_table (manager st)) (L "greeting") [] = Some (L "Hello") ∧
   L "Hallo" ≠ L "Hello").
Proof.
  split; [|split].
  - exists {| manager := manager demo_collision;
              lpcwCache := {[ makeKey (L "a") [L "b"] := L "T" ]} |}.
    eexists. split; [vm_compute; reflexivity|].
    split; [vm_compute; reflexivity|].
    split; [vm_compute; reflexivity|]. discriminate.
  - exists {| manager := manager demo_collision;
              lpcwCache := {[ makeKey (L "a" ++ [US] ++ L "b") []
                              := L "a" ++ [US] ++ L "b" ]} |}.
    eexists. split; [vm_compute; reflexivity|].
    split; [vm_compute; reflexivity|].
    split; [vm_compute; reflexivity|]. discriminate.
  - split; [vm_compute; reflexivity|].
    split; [vm_compute; reflexivity|]. discriminate.
Qed.

(** * Further properties of the code *)

(** ** Numerals *)

Lemma of_uint_acc_ge d acc : acc ≤ Nat.of_uint_acc d acc.
Proof.
  revert acc. induction d; intros acc; simpl; [done|..];
    (etransitivity; [|apply IHd]); rewrite Nat.tail_mul_spec; lia.
Qed.

(** A numeral that starts another numeral is the numeral of a number that
    is not larger. *)
Lemma uint_digits_prefix_le d d' rest acc :
  uint_digits d ++ rest = uint_digits d' →
  Nat.of_uint_acc d acc ≤ Nat.of_uint_acc d' acc.
Proof.
  revert d' acc. induction d; intros d' acc; simpl;
    [intros _; apply of_uint_acc_ge|..];
    destruct d'; simpl; try discriminate; intros [= E]; by apply IHd.
Qed.

Lemma to_wstring_prefix_le j k :
  starts_with (to_wstring j) (to_wstring k) = true → j ≤ k.
Proof.
  intros [rest E]%starts_with_prefix. unfold to_wstring in E.
  rewrite <- (DecimalNat.Unsigned.of_to j), <- (DecimalNat.Unsigned.of_to k).
  by apply (uint_digits_prefix_le _ _ rest).
Qed.

Lemma uint_digits_is_digit d : Forall (λ c, is_digit c = true) (uint_digits d).
Proof. induction d; simpl; by constructor. Qed.

(** Before a text that does not go on with a digit, a numeral is read only
    as the start of the numeral that stands there. *)
Lemma numeral_before_text j k post :
  digit_ahead post = false →
  starts_with (to_wstring j) (to_wstring k ++ post) = true →
  starts_with (to_wstring j) (to_wstring k) = true.
Proof.
  intros Hpost [H|[Hlen H]]%starts_with_app_inv; [done|].
  exfalso.
  assert (Hd : Forall (λ c, is_digit c = true)
                 (drop (length (to_wstring k)) (to_wstring j))).
  { apply Forall_drop, uint_digits_is_digit. }
  destruct (drop (length (to_wstring k)) (to_wstring j)) as [|c rest] eqn:D.
  { apply (f_equal length) in D. rewrite length_drop in D.
    change (length (@nil N)) with 0 in D. lia. }
  apply Forall_cons in Hd as [Hc _].
  destruct post as [|c' post]; [done|]. simpl in *.
  apply andb_true_iff in H as [->%N.eqb_eq _]. congruence.
Qed.

(** ** One numbered token, any index within the list *)

(** X1.  A numbered token whose index is within the replacement list and
    which is not followed by a digit is replaced, as a whole, by the value of
    its index, [repl[k]] for [$REPLACE_STRING<k+1>], also when the numeral of
    a smaller index starts its own (1 and 10): the turns for larger indices
    do not match it and the turn for a smaller one comes too late.  Here the
    token is the only [$] of the template and the value has none. *)
Theorem numbered_token_replaced (pre post v : wstring) (k : nat)
  (repl : list wstring) :
  repl !! k = Some v →
  ¬ occurs br pre → ¬ occurs br post →
  dollar ∉ pre → dollar ∉ post → dollar ∉ v →
  digit_ahead post = false →
  render (pre ++ base ++ to_wstring (S k) ++ post) repl
  = Some (pre ++ v ++ post).
Proof.
  intros Hv Hbr_pre Hbr_post Hpre Hpost Hval Hahead.
  pose proof (lookup_lt_Some _ _ _ Hv) as Hk.
  pose proof (no_dollar_no_base _ Hpre) as Hbase_pre.
  pose proof (no_dollar_no_base _ Hpost) as Hbase_post.
  rewrite render_eq, replace_all_absent, bind_Some
    by by apply one_token_no_br.
  rewrite (numbered_pass_skip (length repl) (S k)); [|lia|done|].
  - rewrite numbered_pass_S, Hv, bind_Some.
    rewrite (app_assoc base). rewrite replace_all_first;
      [| apply token_head_unique | by apply no_base_no_token].
    rewrite replace_all_absent by by apply no_base_no_token.
    change ((λ r, pre ++ v ++ r) <$> Some post) with (Some (pre ++ v ++ post)).
    rewrite bind_Some.
    assert (Hout : ¬ occurs base (pre ++ v ++ post))
      by by apply no_dollar_no_base, no_dollar_app3.
    rewrite numbered_pass_absent, bind_Some;
      [by apply replace_all_absent | lia |].
    intros j _. by apply no_base_no_token.
  - intros j Hj Ho.
    apply one_token_occurs in Ho; [|done..].
    apply numeral_before_text in Ho; [|done].
    apply to_wstring_prefix_le in Ho. lia.
Qed.

Lemma numbered_token_replaced_witness :
  render (L "Replaced $REPLACE_STRING10 times.")
    [L "1"; L "2"; L "3"; L "4"; L "5"; L "6"; L "7"; L "8"; L "9"; L "ten"]
  = Some (L "Replaced ten times.").
Proof.
  apply (numbered_token_replaced (L "Replaced ") (L " times.") (L "ten") 9).
  - reflexivity.
  - apply find_at_None. vm_compute. reflexivity.
  - apply find_at_None. vm_compute. reflexivity.
  - apply (bool_decide_unpack _). by vm_compute.
  - apply (bool_decide_unpack _). by vm_compute.
  - apply (bool_decide_unpack _). by vm_compute.
  - reflexivity.
Defined.

(** ** Bare tokens *)

Lemma br_eq : br = 60%N :: L "br/>".
Proof. reflexivity. Qed.

Lemma occurs_br_around_base u w :
  occurs br (u ++ base ++ w) → occurs br u ∨ occurs br w.
Proof.
  assert (E : u ++ base ++ w = u ++ dollar :: (L "REPLACE_STRING" ++ w))
    by by rewrite base_eq.
  rewrite E. intros Ho.
  apply (occurs_separated br dollar) in Ho as [Ho|Ho]; [by left | right |].
  - rewrite br_eq in *.
    apply (occurs_skip 60%N (L "br/>") (L "REPLACE_STRING") w); [|done].
    apply (bool_decide_unpack _). by vm_compute.
  - apply (bool_decide_unpack _). by vm_compute.
Qed.

Lemma join_base_no_br segs :
  Forall (λ u, ¬ occurs br u) segs → ¬ occurs br (join base segs).
Proof.
  induction 1 as [|u rest Hu Hrest IH]; simpl.
  - by intros ?%occurs_nil.
  - destruct rest as [|u' rest]; [done|].
    by intros [?|?]%occurs_br_around_base.
Qed.

(** X2.  In a template without line-break markers, cut at its
    [$REPLACE_STRING]s into segments, and in which none of the numbered
    tokens of the list is read, every [$REPLACE_STRING] gives way to the
    first replacement value, to nothing when the list is empty.  The value is
    put in as it is, whatever it contains: a [$REPLACE_STRING] or a [<br/>]
    in it stays. *)
Theorem bare_tokens_replaced (segs : list wstring) (repl : list wstring) :
  Forall (λ u, ¬ occurs br u) segs →
  Forall (λ u, ¬ occurs base u) segs →
  (∀ j, 1 ≤ j ≤ length repl →
     ¬ occurs (base ++ to_wstring j) (join base segs)) →
  render (join base segs) repl = Some (join (bare_value repl) segs).
Proof.
  intros Hbr Hbase Hnum.
  rewrite render_eq, replace_all_absent, bind_Some
    by by apply join_base_no_br.
  rewrite numbered_pass_absent, bind_Some by done.
  apply replace_all_join; [apply base_head_unique | done].
Qed.

Lemma bare_tokens_replaced_witness :
  render (L "Swap $REPLACE_STRING and $REPLACE_STRING?")
    [L "<br/>$REPLACE_STRING"]
  = Some (L "Swap <br/>$REPLACE_STRING and <br/>$REPLACE_STRING?").
Proof.
  apply (bare_tokens_replaced [L "Swap "; L " and "; L "?"]
           [L "<br/>$REPLACE_STRING"]).
  - repeat constructor; apply find_at_None; vm_compute; reflexivity.
  - repeat constructor; apply find_at_None; vm_compute; reflexivity.
  - intros j Hj. simpl in Hj. assert (j = 1) as -> by lia.
    apply find_at_None. vm_compute. reflexivity.
Defined.

(** ** The cache over many calls, [load], [detectLanguage] and [getLPW] *)

Section ProcessProperties.
Variable languageMap : gmap wstring wstring.
Variable IniFileCache : Type.
Variable ini_load : wstring → IniFileCache → bool * IniFileCache.
Variable ini_raw : IniFileCache → gmap wstring (gmap wstring wstring).
Variable read_lines : wstring → option (list wstring).
Variable search_native_langue : wstring → regex_outcome.

Local Abbreviation loadFromIni :=
  (loadFromIni languageMap IniFileCache ini_load ini_raw).
Local Abbreviation load :=
  (load languageMap IniFileCache ini_load ini_raw
     read_lines search_native_langue).
Local Abbreviation detectLanguage :=
  (detectLanguage read_lines search_native_langue).
Local Abbreviation Process := (Process IniFileCache).

Implicit Types st : Process.
Implicit Types table cache kvs : gmap wstring wstring.

(** The loop of assignments is the union that prefers the section. *)
Lemma overlay_union table kvs : overlay table kvs = kvs ∪ table.
Proof.
  apply map_eq. intros k. rewrite lookup_overlay, lookup_union.
  destruct (kvs !! k), (table !! k); done.
Qed.

(** One call of [getLPCW]: it returns, leaves the manager alone and keeps
    what the cache holds. *)
Lemma getLPCW_step id repl st :
  ∃ v st', getLPCW id repl st = Some (v, st') ∧
    manager st' = manager st ∧ lpcwCache st ⊆ lpcwCache st' ∧
    (coherent (_table (manager st)) (lpcwCache st) → sep_free id repl →
       get (_table (manager st)) id repl = Some v ∧
       coherent (_table (manager st')) (lpcwCache st')).
Proof.
  destruct (lpcwCache st !! makeKey id repl) as [w|] eqn:Hk.
  - exists w, st. split; [by apply getLPCW_hit|]. split; [done|].
    split; [done|]. intros Hco Hfree. split; [by apply Hco | done].
  - destruct (getLPCW_miss _ _ _ _ Hk) as (w & Hget & Hw).
    eexists w, _. split; [done|]. simpl. split; [done|].
    split; [by apply insert_subseteq|].
    intros Hco Hfree. split; [done|].
    intros id' repl' v' Hfree'. rewrite lookup_insert.
    destruct (decide (makeKey id repl = makeKey id' repl')) as [Heq|Hne].
    + apply makeKey_inj in Heq as [-> ->]; [|done..]. by intros [= <-].
    + by apply Hco.
Qed.

(** X3.  After [loadFromIni] has returned [true], [get] renders the text
    that the section of the language code has for the identifier, the
    built-in English text when the section has none (or when there is no
    such section), and returns the identifier when neither has it; the table
    is the union of the section and [languageMap], whatever table was loaded
    before.  After [false], [get] is [get] on [languageMap]. *)
Theorem get_after_loadFromIni iniFile languageCode st :
  let r := loadFromIni iniFile languageCode st in
  let section := default ∅ (ini_raw (_cache (manager r.2)) !! languageCode) in
  (r.1 = true → _table (manager r.2) = section ∪ languageMap) ∧
  ∀ id repl,
    get (_table (manager r.2)) id repl
    = if r.1 then
        match section !! id, languageMap !! id with
        | Some tmpl, _ => render tmpl repl
        | None, Some tmpl => render tmpl repl
        | None, None => Some id
        end
      else get languageMap id repl.
Proof.
  intros r section. subst section.
  destruct r as [[] st'] eqn:Hr; subst r; simpl.
  - apply loadFromIni_true in Hr as (ini & _ & -> & _ & Htable).
    assert (Hunion : _table (manager st')
                     = default ∅ (ini_raw ini !! languageCode) ∪ languageMap).
    { rewrite Htable. destruct (ini_raw ini !! languageCode) as [kvs|]; simpl.
      - apply overlay_union.
      - by rewrite (left_id_L ∅ (∪)). }
    split; [done|]. intros id repl. unfold get. rewrite Hunion, lookup_union.
    destruct (default ∅ (ini_raw ini !! languageCode) !! id),
      (languageMap !! id); done.
  - apply loadFromIni_false in Hr as [_ ->]. split; [done|]. done.
Qed.

(** X4.  Calls of [getLPCW], however many and for whatever arguments,
    always return, never change the manager, and never remove or change an
    entry of the cache: a text once stored stays under its key. *)
Theorem getLPCW_each_keeps (requests : list (wstring * list wstring)) st :
  ∃ vs st', getLPCW_each requests st = Some (vs, st') ∧
    length vs = length requests ∧
    manager st' = manager st ∧
    ∀ key v, lpcwCache st !! key = Some v → lpcwCache st' !! key = Some v.
Proof.
  revert st. induction requests as [|[id repl] rest IH]; intros st.
  - by exists [], st.
  - destruct (getLPCW_step id repl st) as (v & st1 & Hv & Hm & Hsub & _).
    destruct (IH st1) as (vs & st2 & Hvs & Hlen & Hm' & Hkeep).
    exists (v :: vs), st2. simpl. rewrite Hv, Hvs. split; [done|].
    split; [by rewrite Hlen|]. split; [congruence|].
    intros key w Hw. apply Hkeep.
    by apply (lookup_weaken (lpcwCache st)).
Qed.

(** X5.  From a cache that is coherent with the table, an empty one for
    instance, calls of [getLPCW] with separator-free arguments return, one
    after the other, what [get] returns for the same arguments, and leave
    the cache coherent. *)
Theorem getLPCW_each_renders (requests : list (wstring * list wstring)) st :
  coherent (_table (manager st)) (lpcwCache st) →
  Forall (λ rq, sep_free rq.1 rq.2) requests →
  ∃ vs st', getLPCW_each requests st = Some (vs, st') ∧
    Forall2 (λ rq v, get (_table (manager st)) rq.1 rq.2 = Some v)
      requests vs ∧
    coherent (_table (manager st')) (lpcwCache st').
Proof.
  intros Hco Hfree. revert st Hco.
  induction Hfree as [|[id repl] rest Hrq Hrest IH]; intros st Hco.
  - exists [], st. split; [done|]. split; [constructor | done].
  - destruct (getLPCW_step id repl st) as (v & st1 & Hv & Hm & _ & Hstep).
    destruct (Hstep Hco Hrq) as [Hget Hco1].
    destruct (IH st1 Hco1) as (vs & st2 & Hvs & Hall & Hco2).
    exists (v :: vs), st2. simpl. rewrite Hv, Hvs. split; [done|].
    split; [|done]. constructor; [done|]. by rewrite <- Hm.
Qed.

(** X6.  Two pairs of arguments that differ only in where the separator
    stands have the same key: the identifier [id], U+001F, [r] with the
    values [repl] has the key of [id] with the values [r :: repl].  So after
    a call for the one, a call for the other returns the same stored text. *)
Theorem makeKey_shift (id r : wstring) (repl : list wstring) :
  makeKey (id ++ US :: r) repl = makeKey id (r :: repl) ∧
  ∀ st v st', getLPCW id (r :: repl) st = Some (v, st') →
    getLPCW (id ++ US :: r) repl st' = Some (v, st').
Proof.
  assert (Hkey : makeKey (id ++ US :: r) repl = makeKey id (r :: repl)).
  { rewrite !makeKey_eq. simpl. by rewrite <- app_assoc. }
  split; [done|]. intros st v st' Hcall.
  apply getLPCW_hit. rewrite Hkey.
  destruct (lpcwCache st !! makeKey id (r :: repl)) as [w|] eqn:Hk.
  - rewrite (getLPCW_hit _ _ _ _ _ Hk) in Hcall. by injection Hcall as <- <-.
  - destruct (getLPCW_miss _ _ _ _ Hk) as (w & _ & Hw).
    rewrite Hw in Hcall. injection Hcall as <- <-. simpl.
    by rewrite lookup_insert_eq.
Qed.

Lemma ini_path_separated (dir : wstring) (c : wchar) :
  last dir = Some c → c ≠ backslash → c ≠ slash →
  ini_path dir = (dir ++ [backslash]) ++ L "MultiReplace\languages.ini".
Proof.
  intros Hlast Hb Hs. unfold ini_path. rewrite Hlast.
  apply N.eqb_neq in Hb, Hs. by rewrite Hb, Hs.
Qed.

(** X7.  A plugin directory may be given with or without a backslash at
    its end: when it ends in a unit that is neither a backslash nor a
    slash, [load] reads the same file, with the same outcome, as for the
    directory followed by a backslash. *)
Theorem load_trailing_backslash (dir xml : wstring) (c : wchar) st :
  last dir = Some c → c ≠ backslash → c ≠ slash →
  ini_path (dir ++ [backslash]) = ini_path dir ∧
  load (dir ++ [backslash]) xml st = load dir xml st.
Proof.
  intros Hlast Hb Hs.
  assert (Hpath : ini_path (dir ++ [backslash]) = ini_path dir).
  { rewrite (ini_path_separated dir c) by done.
    unfold ini_path. rewrite last_snoc. by rewrite N.eqb_refl. }
  split; [done|]. unfold load. by rewrite Hpath.
Qed.

Lemma scan_lines_unmatched (before rest : list wstring) :
  Forall (λ line, search_native_langue line = Unmatched) before →
  scan_lines search_native_langue (before ++ rest)
  = scan_lines search_native_langue rest.
Proof. induction 1 as [|line before Hline _ IH]; simpl; [done|]. by rewrite Hline. Qed.

(** X8.  [detectLanguage] always answers.  The answer is ["english"] when
    the file cannot be opened, when no line matches, and when the search
    throws on the first line that is not simply unmatched; otherwise it is
    the first group of the first line that matches, whatever the later
    lines are. *)
Theorem detectLanguage_cases (xml : wstring) :
  (read_lines xml = None → detectLanguage xml = L "english") ∧
  (∀ lines, read_lines xml = Some lines →
     Forall (λ line, search_native_langue line = Unmatched) lines →
     detectLanguage xml = L "english") ∧
  (∀ before line after,
     read_lines xml = Some (before ++ line :: after) →
     Forall (λ line, search_native_langue line = Unmatched) before →
     (∀ group1, search_native_langue line = Matched group1 →
        detectLanguage xml = group1) ∧
     (search_native_langue line = Thrown →
        detectLanguage xml = L "english")).
Proof.
  unfold detectLanguage. split; [by intros ->|]. split.
  - intros lines -> Hlines.
    rewrite <- (app_nil_r lines). by rewrite scan_lines_unmatched.
  - intros before line after -> Hbefore.
    rewrite scan_lines_unmatched by done. simpl.
    split; [by intros group1 -> | by intros ->].
Qed.

(** X9.  With a coherent cache and separator-free arguments, [getLPW] puts
    into the buffer of the thread, whatever this held, the text that
    [getLPCW] returns for the same arguments; its pointer is null exactly
    when this text is empty. *)
Theorem getLPW_agrees (id : wstring) (repl : list wstring) st (buf : wstring) :
  coherent (_table (manager st)) (lpcwCache st) → sep_free id repl →
  ∃ text st', getLPCW id repl st = Some (text, st') ∧
    getLPW (_table (manager st)) id repl buf
    = Some (match text with [] => false | _ :: _ => true end, text).
Proof.
  intros Hco Hfree.
  destruct (getLPCW_step id repl st) as (text & st' & Hcall & _ & _ & Hstep).
  destruct (Hstep Hco Hfree) as [Hget _].
  exists text, st'. split; [done|]. unfold getLPW. by rewrite Hget.
Qed.

End ProcessProperties.

Lemma getLPCW_each_renders_witness :
  ∃ vs st',
    getLPCW_each
      [(L "greeting", []); (L "farewell", [L "x"]); (L "greeting", [])]
      demo_german = Some (vs, st') ∧
    Forall2 (λ rq v, get (_table (manager demo_german)) rq.1 rq.2 = Some v)
      [(L "greeting", []); (L "farewell", [L "x"]); (L "greeting", [])] vs ∧
    coherent (_table (manager st')) (lpcwCache st').
Proof.
  apply (getLPCW_each_renders _
           [(L "greeting", []); (L "farewell", [L "x"]); (L "greeting", [])]
           demo_german).
  - intros id repl v _. vm_compute. discriminate.
  - repeat constructor; apply (bool_decide_unpack _); by vm_compute.
Defined.

Lemma load_trailing_backslash_witness :
  ini_path (L "C:\npp\plugins" ++ [backslash]) = ini_path (L "C:\npp\plugins")
  ∧ load demo_english _ demo_load demo_raw (λ _, None) (λ _, Unmatched)
      (L "C:\npp\plugins" ++ [backslash]) (L "nativeLang.xml") demo_start
    = load demo_english _ demo_load demo_raw (λ _, None) (λ _, Unmatched)
        (L "C:\npp\plugins") (L "nativeLang.xml") demo_start.
Proof.
  apply (load_trailing_backslash demo_english _ demo_load demo_raw
           (λ _, None) (λ _, Unmatched)
           (L "C:\npp\plugins") (L "nativeLang.xml") 115%N demo_start).
  - vm_compute. reflexivity.
  - discriminate.
  - discriminate.
Defined.

Lemma getLPW_agrees_witness :
  ∃ text st',
    getLPCW (L "greeting") [] demo_german = Some (text, st') ∧
    getLPW (_table (manager demo_german)) (L "greeting") [] (L "old")
    = Some (match text with [] => false | _ :: _ => true end, text).
Proof.
  apply (getLPW_agrees _ (L "greeting") [] demo_german (L "old")).
  - intros id repl v _. vm_compute. discriminate.
  - split; [|constructor]. apply (bool_decide_unpack _). by vm_compute.
Defined.

(** ** Replacement values without a token *)

Lemma numbered_pass_app n (repl extra : list wstring) s :
  n ≤ length repl →
  numbered_pass n (repl ++ extra) s = numbered_pass n repl s.
Proof.
  revert s. induction n as [|n IH]; intros s Hn; [done|].
  rewrite !numbered_pass_S, lookup_app_l by lia.
  destruct (repl !! n) as [val|]; [|done]. rewrite !bind_Some.
  destruct (replace_all (base ++ to_wstring (S n)) val s) as [r|]; [|done].
  rewrite !bind_Some. apply IH. lia.
Qed.

(** X10.  Values at the end of the replacement list whose numbered tokens
    are not in the template, once its line breaks are in place, change
    nothing: [get] renders as for the list without them, as long as this
    shorter list is not empty. *)
Theorem surplus_values_ignored (tmpl r1 : wstring) (repl extra : list wstring) :
  repl ≠ [] →
  replace_all br CRLF tmpl = Some r1 →
  (∀ j, length repl < j ≤ length repl + length extra →
     ¬ occurs (base ++ to_wstring j) r1) →
  render tmpl (repl ++ extra) = render tmpl repl.
Proof.
  intros Hne Hbr Hextra. rewrite !render_eq, Hbr, !bind_Some.
  rewrite (numbered_pass_skip (length (repl ++ extra)) (length repl));
    rewrite ?length_app; [|lia..|done].
  rewrite numbered_pass_app by done.
  by destruct repl.
Qed.

Lemma surplus_values_ignored_witness :
  render (L "Found $REPLACE_STRING1<br/>in $REPLACE_STRING2")
    ([L "7 hits"; L "3 files"] ++ [L "unused"; L "$REPLACE_STRING1"])
  = render (L "Found $REPLACE_STRING1<br/>in $REPLACE_STRING2")
      [L "7 hits"; L "3 files"].
Proof.
  apply (surplus_values_ignored _
           (L "Found $REPLACE_STRING1" ++ CRLF ++ L "in $REPLACE_STRING2")).
  - discriminate.
  - vm_compute. reflexivity.
  - intros j Hj. simpl in Hj.
    assert (j = 3 ∨ j = 4) as [-> | ->] by lia;
      apply find_at_None; vm_compute; reflexivity.
Defined.
